(** * Liquid-Left: the level / puzzle state store

    A shallow embedding of the zustand store of the game (the file that
    [components/Puzzle.tsx] imports as [../store]): the procedural level
    generators, the connection engine, the mechanic resolvers and the
    level transitions, followed by the properties of the store that the
    specification states.

    Conventions of the embedding.
    - A JavaScript [number] that holds a measure ([playerScale],
      [leafHealth], [rainLevel], the amounts, coordinates) is an IEEE-754
      binary64 value: Rocq's primitive [float], whose operations round as
      JavaScript's do.  A [number] that only counts from 0 in steps of 1
      ([narrativeIndex], [nextSequenceIndex], [bubblesPopped],
      [fragmentsCollected]) is a [nat] (exact in binary64 below 2^53).
    - [string | null] is [option string]; JavaScript's truthiness test
      [!x] on such a value is [falsy].
    - [set(partial)] of zustand merges the listed fields into the state:
      it is a chain of the field setters [set_f].
    - [Math.random()] is an oracle [rnd : nat -> float] given to the
      operations that draw: [rnd k] is the k-th draw of the call.
    - [setInterval] registers a timer in the [World]; the firing of a
      timer is the event [Tick].  The audio calls are logged in the
      [World]. *)

From Stdlib Require Import Floats ZArith DecimalString.
From stdpp Require Import gmap strings list.

Set Default Proof Using "Type".
#[local] Set Warnings "-inexact-float".

(** ** Numbers and strings of the host language *)

Definition string_of_nat (n : nat) : string :=
  NilEmpty.string_of_uint (Nat.to_uint n).

Definition float_of_nat (n : nat) : float :=
  PrimFloat.of_uint63 (Uint63.of_Z (Z.of_nat n)).

(** [Math.min(a, b)]: NaN when an argument is NaN, and -0 below +0. *)
Definition Math_min (a b : float) : float :=
  if (PrimFloat.is_nan a || PrimFloat.is_nan b)%bool then PrimFloat.nan
  else if (a <? b)%float then a
  else if (b <? a)%float then b
  else match PrimFloat.classify a with NZero => a | _ => b end.

(** [Math.floor(x)] as an integer, for the finite [x] that index a table
    or name a character.  Zero is 0; the non-finite values, which
    [Math.random()] never yields, are given 0 as well. *)
Definition Math_floor (x : float) : Z :=
  match Prim2SF x with
  | S754_finite sgn m e =>
      let n := if sgn then Z.neg m else Z.pos m in
      if (0 <=? e)%Z then (n * 2 ^ e)%Z else (n / 2 ^ (- e))%Z
  | _ => 0%Z
  end.

Definition Math_PI : float := 0x1.921fb54442d18p+1%float.

(** [!x] for [x : string | null | undefined]: null, undefined and the
    empty string are falsy. *)
Definition falsy (x : option string) : bool :=
  match x with
  | None => true
  | Some s => String.eqb s ""
  end.

(** ** Data model *)

Definition Vec3 : Type := float * float * float.

Record NodeData := {
  node_id : string;
  node_position : Vec3;
  connected : bool
}.

Inductive LevelType :=
  | PROLOGUE | CHAPTER_1 | NAME | CHEWING | WIND | TRAVEL | CONNECTION | HOME | SUN.

Inductive InteractionMode := SLINGSHOT | LURE | OBSERVER | CLICK.

#[global] Instance LevelType_eq_dec : EqDecision LevelType.
Proof. solve_decision. Defined.

Module Feature.
Inductive type :=
  | WALL | FLESH_TUNNEL | ORGANIC_PLATFORM | LAKE | DECORATION | EXIT_GATE
  | BUBBLE | FRAGMENT | FLESH_BALL | WIND_EMITTER | WITHERED_LEAF
  | EMOTION_ORB | SUN | MUSHROOM.

(** The [data] field, "generic data for specific logic": the text of a
    bubble (its UTF-16 code unit), the stroke of a fragment (absent
    when the index falls outside the table), the type of an orb. *)
Inductive data :=
  | Text (code_unit : Z)
  | Char (stroke : option string)
  | Orb (type : string).
End Feature.

Record EnvFeature := {
  feat_id : string;
  feat_type : Feature.type;
  feat_position : Vec3;
  feat_scale : Vec3;
  feat_rotation : option Vec3;
  feat_color : option string;
  feat_data : option Feature.data
}.

(** The data fields of [GameState]; its actions are the functions below. *)
Record GameState := {
  currentLevel : LevelType;
  interactionMode : InteractionMode;
  narrativeIndex : nat;
  nodes : list NodeData;
  connections : list (string * string);
  envFeatures : list EnvFeature;
  playerPos : Vec3;
  cursorWorldPos : Vec3;
  isMouseDown : bool;
  hoveredNodeId : option string;
  draggingNodeId : option string;
  isInteractiveHover : bool;
  sequenceOrder : list string;
  nextSequenceIndex : nat;
  tetheredNodeId : option string;
  bubblesPopped : nat;
  fragmentsCollected : nat;
  playerScale : float;
  leafHealth : float;
  rainLevel : float;
  isRaining : bool;
  isLevelComplete : bool
}.

(** *** Field setters: [set({ f: v })] *)

Definition set_currentLevel (v : LevelType) (s : GameState) : GameState :=
  Build_GameState v (interactionMode s) (narrativeIndex s) (nodes s) (connections s) (envFeatures s) (playerPos s) (cursorWorldPos s) (isMouseDown s) (hoveredNodeId s) (draggingNodeId s) (isInteractiveHover s) (sequenceOrder s) (nextSequenceIndex s) (tetheredNodeId s) (bubblesPopped s) (fragmentsCollected s) (playerScale s) (leafHealth s) (rainLevel s) (isRaining s) (isLevelComplete s).
Definition set_interactionMode (v : InteractionMode) (s : GameState) : GameState :=
  Build_GameState (currentLevel s) v (narrativeIndex s) (nodes s) (connections s) (envFeatures s) (playerPos s) (cursorWorldPos s) (isMouseDown s) (hoveredNodeId s) (draggingNodeId s) (isInteractiveHover s) (sequenceOrder s) (nextSequenceIndex s) (tetheredNodeId s) (bubblesPopped s) (fragmentsCollected s) (playerScale s) (leafHealth s) (rainLevel s) (isRaining s) (isLevelComplete s).
Definition set_narrativeIndex (v : nat) (s : GameState) : GameState :=
  Build_GameState (currentLevel s) (interactionMode s) v (nodes s) (connections s) (envFeatures s) (playerPos s) (cursorWorldPos s) (isMouseDown s) (hoveredNodeId s) (draggingNodeId s) (isInteractiveHover s) (sequenceOrder s) (nextSequenceIndex s) (tetheredNodeId s) (bubblesPopped s) (fragmentsCollected s) (playerScale s) (leafHealth s) (rainLevel s) (isRaining s) (isLevelComplete s).
Definition set_nodes (v : list NodeData) (s : GameState) : GameState :=
  Build_GameState (currentLevel s) (interactionMode s) (narrativeIndex s) v (connections s) (envFeatures s) (playerPos s) (cursorWorldPos s) (isMouseDown s) (hoveredNodeId s) (draggingNodeId s) (isInteractiveHover s) (sequenceOrder s) (nextSequenceIndex s) (tetheredNodeId s) (bubblesPopped s) (fragmentsCollected s) (playerScale s) (leafHealth s) (rainLevel s) (isRaining s) (isLevelComplete s).
Definition set_connections (v : list (string * string)) (s : GameState) : GameState :=
  Build_GameState (currentLevel s) (interactionMode s) (narrativeIndex s) (nodes s) v (envFeatures s) (playerPos s) (cursorWorldPos s) (isMouseDown s) (hoveredNodeId s) (draggingNodeId s) (isInteractiveHover s) (sequenceOrder s) (nextSequenceIndex s) (tetheredNodeId s) (bubblesPopped s) (fragmentsCollected s) (playerScale s) (leafHealth s) (rainLevel s) (isRaining s) (isLevelComplete s).
Definition set_envFeatures (v : list EnvFeature) (s : GameState) : GameState :=
  Build_GameState (currentLevel s) (interactionMode s) (narrativeIndex s) (nodes s) (connections s) v (playerPos s) (cursorWorldPos s) (isMouseDown s) (hoveredNodeId s) (draggingNodeId s) (isInteractiveHover s) (sequenceOrder s) (nextSequenceIndex s) (tetheredNodeId s) (bubblesPopped s) (fragmentsCollected s) (playerScale s) (leafHealth s) (rainLevel s) (isRaining s) (isLevelComplete s).
Definition set_playerPos (v : Vec3) (s : GameState) : GameState :=
  Build_GameState (currentLevel s) (interactionMode s) (narrativeIndex s) (nodes s) (connections s) (envFeatures s) v (cursorWorldPos s) (isMouseDown s) (hoveredNodeId s) (draggingNodeId s) (isInteractiveHover s) (sequenceOrder s) (nextSequenceIndex s) (tetheredNodeId s) (bubblesPopped s) (fragmentsCollected s) (playerScale s) (leafHealth s) (rainLevel s) (isRaining s) (isLevelComplete s).
Definition set_cursorWorldPos (v : Vec3) (s : GameState) : GameState :=
  Build_GameState (currentLevel s) (interactionMode s) (narrativeIndex s) (nodes s) (connections s) (envFeatures s) (playerPos s) v (isMouseDown s) (hoveredNodeId s) (draggingNodeId s) (isInteractiveHover s) (sequenceOrder s) (nextSequenceIndex s) (tetheredNodeId s) (bubblesPopped s) (fragmentsCollected s) (playerScale s) (leafHealth s) (rainLevel s) (isRaining s) (isLevelComplete s).
Definition set_isMouseDown (v : bool) (s : GameState) : GameState :=
  Build_GameState (currentLevel s) (interactionMode s) (narrativeIndex s) (nodes s) (connections s) (envFeatures s) (playerPos s) (cursorWorldPos s) v (hoveredNodeId s) (draggingNodeId s) (isInteractiveHover s) (sequenceOrder s) (nextSequenceIndex s) (tetheredNodeId s) (bubblesPopped s) (fragmentsCollected s) (playerScale s) (leafHealth s) (rainLevel s) (isRaining s) (isLevelComplete s).
Definition set_hoveredNodeId (v : option string) (s : GameState) : GameState :=
  Build_GameState (currentLevel s) (interactionMode s) (narrativeIndex s) (nodes s) (connections s) (envFeatures s) (playerPos s) (cursorWorldPos s) (isMouseDown s) v (draggingNodeId s) (isInteractiveHover s) (sequenceOrder s) (nextSequenceIndex s) (tetheredNodeId s) (bubblesPopped s) (fragmentsCollected s) (playerScale s) (leafHealth s) (rainLevel s) (isRaining s) (isLevelComplete s).
Definition set_draggingNodeId (v : option string) (s : GameState) : GameState :=
  Build_GameState (currentLevel s) (interactionMode s) (narrativeIndex s) (nodes s) (connections s) (envFeatures s) (playerPos s) (cursorWorldPos s) (isMouseDown s) (hoveredNodeId s) v (isInteractiveHover s) (sequenceOrder s) (nextSequenceIndex s) (tetheredNodeId s) (bubblesPopped s) (fragmentsCollected s) (playerScale s) (leafHealth s) (rainLevel s) (isRaining s) (isLevelComplete s).
Definition set_isInteractiveHover (v : bool) (s : GameState) : GameState :=
  Build_GameState (currentLevel s) (interactionMode s) (narrativeIndex s) (nodes s) (connections s) (envFeatures s) (playerPos s) (cursorWorldPos s) (isMouseDown s) (hoveredNodeId s) (draggingNodeId s) v (sequenceOrder s) (nextSequenceIndex s) (tetheredNodeId s) (bubblesPopped s) (fragmentsCollected s) (playerScale s) (leafHealth s) (rainLevel s) (isRaining s) (isLevelComplete s).
Definition set_sequenceOrder (v : list string) (s : GameState) : GameState :=
  Build_GameState (currentLevel s) (interactionMode s) (narrativeIndex s) (nodes s) (connections s) (envFeatures s) (playerPos s) (cursorWorldPos s) (isMouseDown s) (hoveredNodeId s) (draggingNodeId s) (isInteractiveHover s) v (nextSequenceIndex s) (tetheredNodeId s) (bubblesPopped s) (fragmentsCollected s) (playerScale s) (leafHealth s) (rainLevel s) (isRaining s) (isLevelComplete s).
Definition set_nextSequenceIndex (v : nat) (s : GameState) : GameState :=
  Build_GameState (currentLevel s) (interactionMode s) (narrativeIndex s) (nodes s) (connections s) (envFeatures s) (playerPos s) (cursorWorldPos s) (isMouseDown s) (hoveredNodeId s) (draggingNodeId s) (isInteractiveHover s) (sequenceOrder s) v (tetheredNodeId s) (bubblesPopped s) (fragmentsCollected s) (playerScale s) (leafHealth s) (rainLevel s) (isRaining s) (isLevelComplete s).
Definition set_tetheredNodeId (v : option string) (s : GameState) : GameState :=
  Build_GameState (currentLevel s) (interactionMode s) (narrativeIndex s) (nodes s) (connections s) (envFeatures s) (playerPos s) (cursorWorldPos s) (isMouseDown s) (hoveredNodeId s) (draggingNodeId s) (isInteractiveHover s) (sequenceOrder s) (nextSequenceIndex s) v (bubblesPopped s) (fragmentsCollected s) (playerScale s) (leafHealth s) (rainLevel s) (isRaining s) (isLevelComplete s).
Definition set_bubblesPopped (v : nat) (s : GameState) : GameState :=
  Build_GameState (currentLevel s) (interactionMode s) (narrativeIndex s) (nodes s) (connections s) (envFeatures s) (playerPos s) (cursorWorldPos s) (isMouseDown s) (hoveredNodeId s) (draggingNodeId s) (isInteractiveHover s) (sequenceOrder s) (nextSequenceIndex s) (tetheredNodeId s) v (fragmentsCollected s) (playerScale s) (leafHealth s) (rainLevel s) (isRaining s) (isLevelComplete s).
Definition set_fragmentsCollected (v : nat) (s : GameState) : GameState :=
  Build_GameState (currentLevel s) (interactionMode s) (narrativeIndex s) (nodes s) (connections s) (envFeatures s) (playerPos s) (cursorWorldPos s) (isMouseDown s) (hoveredNodeId s) (draggingNodeId s) (isInteractiveHover s) (sequenceOrder s) (nextSequenceIndex s) (tetheredNodeId s) (bubblesPopped s) v (playerScale s) (leafHealth s) (rainLevel s) (isRaining s) (isLevelComplete s).
Definition set_playerScale (v : float) (s : GameState) : GameState :=
  Build_GameState (currentLevel s) (interactionMode s) (narrativeIndex s) (nodes s) (connections s) (envFeatures s) (playerPos s) (cursorWorldPos s) (isMouseDown s) (hoveredNodeId s) (draggingNodeId s) (isInteractiveHover s) (sequenceOrder s) (nextSequenceIndex s) (tetheredNodeId s) (bubblesPopped s) (fragmentsCollected s) v (leafHealth s) (rainLevel s) (isRaining s) (isLevelComplete s).
Definition set_leafHealth (v : float) (s : GameState) : GameState :=
  Build_GameState (currentLevel s) (interactionMode s) (narrativeIndex s) (nodes s) (connections s) (envFeatures s) (playerPos s) (cursorWorldPos s) (isMouseDown s) (hoveredNodeId s) (draggingNodeId s) (isInteractiveHover s) (sequenceOrder s) (nextSequenceIndex s) (tetheredNodeId s) (bubblesPopped s) (fragmentsCollected s) (playerScale s) v (rainLevel s) (isRaining s) (isLevelComplete s).
Definition set_rainLevel (v : float) (s : GameState) : GameState :=
  Build_GameState (currentLevel s) (interactionMode s) (narrativeIndex s) (nodes s) (connections s) (envFeatures s) (playerPos s) (cursorWorldPos s) (isMouseDown s) (hoveredNodeId s) (draggingNodeId s) (isInteractiveHover s) (sequenceOrder s) (nextSequenceIndex s) (tetheredNodeId s) (bubblesPopped s) (fragmentsCollected s) (playerScale s) (leafHealth s) v (isRaining s) (isLevelComplete s).
Definition set_isRaining (v : bool) (s : GameState) : GameState :=
  Build_GameState (currentLevel s) (interactionMode s) (narrativeIndex s) (nodes s) (connections s) (envFeatures s) (playerPos s) (cursorWorldPos s) (isMouseDown s) (hoveredNodeId s) (draggingNodeId s) (isInteractiveHover s) (sequenceOrder s) (nextSequenceIndex s) (tetheredNodeId s) (bubblesPopped s) (fragmentsCollected s) (playerScale s) (leafHealth s) (rainLevel s) v (isLevelComplete s).
Definition set_isLevelComplete (v : bool) (s : GameState) : GameState :=
  Build_GameState (currentLevel s) (interactionMode s) (narrativeIndex s) (nodes s) (connections s) (envFeatures s) (playerPos s) (cursorWorldPos s) (isMouseDown s) (hoveredNodeId s) (draggingNodeId s) (isInteractiveHover s) (sequenceOrder s) (nextSequenceIndex s) (tetheredNodeId s) (bubblesPopped s) (fragmentsCollected s) (playerScale s) (leafHealth s) (rainLevel s) (isRaining s) v.

Notation "s |> f" := (f s) (at level 45, left associativity, only parsing).

(** ** Procedural generation *)

Record GenResult := { gen_nodes : list NodeData; gen_env : list EnvFeature }.

Definition feature (id : string) (ty : Feature.type) (pos scale : Vec3)
    (rot : option Vec3) (color : string) (dat : option Feature.data) : EnvFeature :=
  {| feat_id := id; feat_type := ty; feat_position := pos; feat_scale := scale;
     feat_rotation := rot; feat_color := Some color; feat_data := dat |}.

Definition generatePrologueEnv : GenResult :=
  let canal := flat_map (fun i =>
    let z := (-12 + float_of_nat i * 2)%float in
    let width := (3 - float_of_nat i * 0.1)%float in
    [ feature ("canal-l-" +:+ string_of_nat i) Feature.FLESH_TUNNEL
        ((- width)%float, 1%float, z) (2%float, 4%float, 2%float)
        (Some (0%float, 0%float, (-0.2)%float)) "#d88" None;
      feature ("canal-r-" +:+ string_of_nat i) Feature.FLESH_TUNNEL
        (width, 1%float, z) (2%float, 4%float, 2%float)
        (Some (0%float, 0%float, 0.2%float)) "#d88" None ]) (seq 0 14) in
  {| gen_nodes := [];
     gen_env := canal ++
       [ feature "exit-gate" Feature.EXIT_GATE (0%float, 2%float, 16%float)
           (1%float, 1%float, 1%float) None "#fff" None ] |}.

Definition level1_positions : list Vec3 :=
  [ ((-4)%float, 0%float, (-4)%float); (0%float, 0%float, (-2)%float);
    (4%float, 0%float, (-4)%float); ((-2)%float, 0%float, 2%float);
    (2%float, 0%float, 2%float); (0%float, 0%float, 5%float) ].

Definition generateLevel1Env (rnd : nat -> float) : GenResult :=
  {| gen_nodes := imap (fun i pos =>
       {| node_id := "n1-" +:+ string_of_nat i;
          node_position := (pos.1.1, 0.5%float, pos.2);
          connected := false |}) level1_positions;
     gen_env := map (fun i =>
       feature ("spore-" +:+ string_of_nat i) Feature.DECORATION
         (((rnd (2 * i)%nat - 0.5) * 15)%float, 0%float,
          ((rnd (2 * i + 1)%nat - 0.5) * 15)%float)
         (0.5%float, 0.5%float, 0.5%float) None "#e6e6fa" None) (seq 0 8) |}.

Definition generateNameEnv (rnd : nat -> float) : GenResult :=
  {| gen_nodes := [];
     gen_env := map (fun i =>
       feature ("bubble-" +:+ string_of_nat i) Feature.BUBBLE
         (((rnd (4 * i)%nat - 0.5) * 12)%float,
          (1 + rnd (4 * i + 1)%nat * 2)%float,
          ((rnd (4 * i + 2)%nat - 0.5) * 12)%float)
         (0.8%float, 0.8%float, 0.8%float) None "#e6e6fa"
         (Some (Feature.Text
            ((19968 + Math_floor (rnd (4 * i + 3)%nat * 100)%float) mod 65536)%Z)))
       (seq 0 15) |}.

Definition generateChewingEnv (rnd : nat -> float) : GenResult :=
  {| gen_nodes := [];
     gen_env := map (fun i =>
       feature ("fleshball-" +:+ string_of_nat i) Feature.FLESH_BALL
         (((rnd (4 * i)%nat - 0.5) * 3)%float, 0.5%float,
          (-5 + float_of_nat i * 1.5)%float)
         ((1 + rnd (4 * i + 1)%nat)%float, (1 + rnd (4 * i + 2)%nat)%float,
          (1 + rnd (4 * i + 3)%nat)%float)
         None "#ff9999" None) (seq 0 20) |}.

Definition generateWindEnv : GenResult :=
  {| gen_nodes := [];
     gen_env :=
       [ feature "wind-emitter" Feature.WIND_EMITTER (0%float, 2%float, (-10)%float)
           (1%float, 1%float, 1%float) None "#fff" None;
         feature "withered-leaf" Feature.WITHERED_LEAF (0%float, 1%float, 5%float)
           (2%float, 2%float, 2%float) None "#8b4513" None ] |}.

Definition generateTravelEnv : GenResult :=
  let orb id pos color ty :=
    feature id Feature.EMOTION_ORB pos (2%float, 2%float, 2%float) None color
      (Some (Feature.Orb ty)) in
  {| gen_nodes := [];
     gen_env :=
       [ orb "orb-happy" ((-5)%float, 0.8%float, (-5)%float) "#ffd700" "HAPPY";
         orb "orb-angry" (5%float, 0.8%float, (-5)%float) "#ff4500" "ANGRY";
         orb "orb-envy" ((-5)%float, 0.8%float, 5%float) "#800080" "ENVY";
         orb "orb-tear" (5%float, 0.8%float, 5%float) "#00bfff" "TEAR" ] |}.

Definition generateConnectionEnv : GenResult :=
  let node id pos := {| node_id := id; node_position := pos; connected := false |} in
  {| gen_nodes :=
       [ node "n2-low-1" ((-5)%float, 0.5%float, 4%float);
         node "n2-low-2" (5%float, 0.5%float, 4%float);
         node "n2-mid" (0%float, 0.5%float, 0%float);
         node "n2-high-1" ((-2)%float, 3%float, (-2)%float);
         node "n2-high-2" (2%float, 3%float, (-2)%float) ];
     gen_env :=
       [ feature "plat-upper" Feature.ORGANIC_PLATFORM (0%float, 2.5%float, (-2)%float)
           (6%float, 0.5%float, 6%float) None "#fff0f5" None ] |}.

Definition generateHomeEnv : GenResult :=
  {| gen_nodes := [];
     gen_env :=
       [ feature "lake" Feature.LAKE (0%float, (-2)%float, (-15)%float)
           (30%float, 1%float, 30%float) None "#ffffff" None ] |}.

Definition generateSunEnv : GenResult :=
  {| gen_nodes := [];
     gen_env :=
       [ feature "the-sun" Feature.SUN (0%float, 10%float, (-20)%float)
           (8%float, 8%float, 8%float) None "#ff0000" None;
         feature "mushroom" Feature.MUSHROOM (0%float, 0.5%float, 2%float)
           (1%float, 1%float, 1%float) None "#f0e68c" None ] |}.

Definition START_POSITIONS (level : LevelType) : Vec3 :=
  match level with
  | PROLOGUE => (0%float, 0.5%float, (-12)%float)
  | CHAPTER_1 => (0%float, 0.5%float, 8%float)
  | NAME => (0%float, 0.5%float, 0%float)
  | CHEWING => (0%float, 0.5%float, (-8)%float)
  | WIND => (0%float, 0.5%float, 8%float)
  | TRAVEL => (0%float, 0.5%float, 0%float)
  | CONNECTION => (0%float, 0.5%float, 8%float)
  | HOME => (0%float, 0.5%float, 5%float)
  | SUN => (0%float, 0.5%float, 5%float)
  end.

(** ** The store *)

(** The state the store is created with. *)
Definition initialState : GameState :=
  {| currentLevel := PROLOGUE;
     interactionMode := SLINGSHOT;
     narrativeIndex := 0;
     nodes := [];
     connections := [];
     envFeatures := [];
     playerPos := (0%float, 0.5%float, (-12)%float);
     cursorWorldPos := (0%float, 0%float, 0%float);
     isMouseDown := false;
     hoveredNodeId := None;
     draggingNodeId := None;
     isInteractiveHover := false;
     sequenceOrder := [];
     nextSequenceIndex := 0;
     tetheredNodeId := None;
     bubblesPopped := 0;
     fragmentsCollected := 0;
     playerScale := 1%float;
     leafHealth := 0%float;
     rainLevel := 0%float;
     isRaining := false;
     isLevelComplete := false |}.

(** *** Input setters *)

Definition setCursorWorldPos (pos : Vec3) (s : GameState) : GameState :=
  s |> set_cursorWorldPos pos.
Definition setMouseDown (isDown : bool) (s : GameState) : GameState :=
  s |> set_isMouseDown isDown.
Definition setHoveredNode (id : option string) (s : GameState) : GameState :=
  s |> set_hoveredNodeId id.
Definition setInteractiveHover (isHover : bool) (s : GameState) : GameState :=
  s |> set_isInteractiveHover isHover.

Definition startDragConnection (id : string) (s : GameState) : GameState :=
  s |> set_draggingNodeId (Some id).
Definition cancelDrag (s : GameState) : GameState :=
  s |> set_draggingNodeId None.
Definition setTetheredNode (id : option string) (s : GameState) : GameState :=
  s |> set_tetheredNodeId id.

Definition updatePlayerPos (pos : Vec3) (s : GameState) : GameState :=
  s |> set_playerPos pos.
Definition advanceNarrative (s : GameState) : GameState :=
  s |> set_narrativeIndex (narrativeIndex s + 1).

(** *** Mechanic resolvers *)

Definition strokes : list string := ["丿"; "丶"; "一"; "丨"; "乙"; "乀"].

(** [strokes[Math.floor(x)]]: undefined outside the table. *)
Definition stroke_at (x : float) : option string :=
  let i := Math_floor x in
  if (i <? 0)%Z then None else strokes !! Z.to_nat i.

(** The fragment pushed by round [i] of the loop of [popBubble]; it takes
    the draws [4i .. 4i+3] in the order the object literal evaluates. *)
Definition fragment (rnd : nat -> float) (id : string) (bubble : EnvFeature)
    (i : nat) : EnvFeature :=
  {| feat_id := "frag-" +:+ id +:+ "-" +:+ string_of_nat i;
     feat_type := Feature.FRAGMENT;
     feat_position :=
       ((bubble.(feat_position).1.1 + (rnd (4 * i)%nat - 0.5))%float,
        0.2%float,
        (bubble.(feat_position).2 + (rnd (4 * i + 1)%nat - 0.5))%float);
     feat_scale := (0.5%float, 0.5%float, 0.5%float);
     feat_rotation :=
       Some ((- Math_PI / 2)%float, 0%float, (rnd (4 * i + 2)%nat * Math_PI)%float);
     feat_color := Some "#e0a0ff";
     feat_data :=
       Some (Feature.Char
         (stroke_at (rnd (4 * i + 3)%nat * float_of_nat (length strokes))%float)) |}.

(** The store part of [popBubble]; the sound it plays first is in
    [step] below. *)
Definition popBubble (rnd : nat -> float) (id : string) (s : GameState) : GameState :=
  match find (fun f => String.eqb f.(feat_id) id) (envFeatures s) with
  | None => s
  | Some bubble =>
      let newEnv :=
        filter (fun f => f.(feat_id) ≠ id) (envFeatures s)
        ++ map (fragment rnd id bubble) (seq 0 3) in
      s |> set_envFeatures newEnv
        |> set_bubblesPopped (bubblesPopped s + 1)
        |> set_isInteractiveHover false
  end.

Definition absorbFragment (id : string) (s : GameState) : GameState :=
  let newEnv := filter (fun f => f.(feat_id) ≠ id) (envFeatures s) in
  let count := fragmentsCollected s + 1 in
  let isComplete := 5 <=? count in
  s |> set_envFeatures newEnv
    |> set_fragmentsCollected count
    |> set_isLevelComplete isComplete
    |> set_narrativeIndex (if isComplete then 1 else narrativeIndex s).

Definition growPlayer (amount : float) (s : GameState) : GameState :=
  let newScale := Math_min (playerScale s + amount)%float 10%float in
  let isComplete := (8 <? newScale)%float in
  s |> set_playerScale newScale
    |> set_isLevelComplete isComplete
    |> set_narrativeIndex (if isComplete then 1 else narrativeIndex s).

Definition healLeaf (amount : float) (s : GameState) : GameState :=
  let newHealth := Math_min (leafHealth s + amount)%float 100%float in
  s |> set_leafHealth newHealth
    |> set_isLevelComplete (100 <=? newHealth)%float.

Definition selectVehicle (type : string) (s : GameState) : GameState :=
  if String.eqb type "TEAR"
  then s |> set_isLevelComplete true |> set_narrativeIndex 1
  else s.

(** *** The connection engine *)

(** [connections.some(c => ...)]: the undirected pair is already there. *)
Definition connection_exists (sourceId targetId : string)
    (cs : list (string * string)) : bool :=
  existsb (fun c =>
    (String.eqb c.1 sourceId && String.eqb c.2 targetId)
    || (String.eqb c.1 targetId && String.eqb c.2 sourceId)) cs.

(** [newConnections.flat()] *)
Definition flat (cs : list (string * string)) : list string :=
  flat_map (fun c => [c.1; c.2]) cs.

(** [new Set(newConnections.flat())] *)
Definition connectedSet (cs : list (string * string)) : gset string :=
  list_to_set (flat cs).

(** The accepting branch of [completeConnection], lines 363-374. *)
Definition acceptConnection (sourceId targetId : string) (s : GameState) : GameState :=
  let newConnections := connections s ++ [(sourceId, targetId)] in
  let newNodes :=
    map (fun n =>
      if (String.eqb n.(node_id) sourceId || String.eqb n.(node_id) targetId)%bool
      then {| node_id := n.(node_id); node_position := n.(node_position);
              connected := true |}
      else n) (nodes s) in
  let isComplete :=
    (length (nodes s) <=? size (connectedSet newConnections))
    && (0 <? length (nodes s)) in
  let newSeqIndex :=
    if decide (currentLevel s = CHAPTER_1)
    then S (nextSequenceIndex s) else nextSequenceIndex s in
  s |> set_connections newConnections
    |> set_nodes newNodes
    |> set_draggingNodeId None
    |> set_narrativeIndex (narrativeIndex s + 1)
    |> set_isLevelComplete isComplete
    |> set_nextSequenceIndex newSeqIndex.

(** The source of a connection: the tethered node in the CONNECTION
    level, the dragged node elsewhere. *)
Definition sourceIdOf (s : GameState) : option string :=
  if decide (currentLevel s = CONNECTION) then tetheredNodeId s
  else draggingNodeId s.

Definition completeConnection (targetId : string) (s : GameState) : GameState :=
  match sourceIdOf s with
  | None => s |> set_draggingNodeId None
  | Some sourceId =>
    if (String.eqb sourceId "" || String.eqb sourceId targetId)%bool
    then s |> set_draggingNodeId None
    else if negb (connection_exists sourceId targetId (connections s)) then
      if decide (currentLevel s = CHAPTER_1) then
        let currentSource := sequenceOrder s !! nextSequenceIndex s in
        let currentTarget := sequenceOrder s !! (nextSequenceIndex s + 1) in
        if (falsy currentSource || falsy currentTarget)%bool
        then s |> set_draggingNodeId None
        else
          let isValid :=
            (bool_decide (Some sourceId = currentSource)
               && bool_decide (Some targetId = currentTarget))
            || (bool_decide (Some sourceId = currentTarget)
               && bool_decide (Some targetId = currentSource)) in
          if negb isValid then s |> set_draggingNodeId None
          else acceptConnection sourceId targetId s
      else acceptConnection sourceId targetId s
    else s |> set_draggingNodeId None
  end.

(** *** Level transitions *)

Definition generate (rnd : nat -> float) (level : LevelType) : GenResult :=
  match level with
  | PROLOGUE => generatePrologueEnv
  | CHAPTER_1 => generateLevel1Env rnd
  | NAME => generateNameEnv rnd
  | CHEWING => generateChewingEnv rnd
  | WIND => generateWindEnv
  | TRAVEL => generateTravelEnv
  | CONNECTION => generateConnectionEnv
  | HOME => generateHomeEnv
  | SUN => generateSunEnv
  end.

Definition modeOf (level : LevelType) : InteractionMode :=
  match level with
  | PROLOGUE => SLINGSHOT
  | HOME => OBSERVER
  | SUN => CLICK
  | _ => LURE
  end.

Definition seqOf (level : LevelType) (genResult : GenResult) : list string :=
  match level with
  | CHAPTER_1 => map node_id genResult.(gen_nodes)
  | _ => []
  end.

Definition startLevel (rnd : nat -> float) (level : LevelType) (s : GameState)
    : GameState :=
  let genResult := generate rnd level in
  let mode := modeOf level in
  let seq := seqOf level genResult in
  let startP := START_POSITIONS level in
  s |> set_currentLevel level
    |> set_interactionMode mode
    |> set_nodes genResult.(gen_nodes)
    |> set_envFeatures genResult.(gen_env)
    |> set_connections []
    |> set_playerPos startP
    |> set_cursorWorldPos startP
    |> set_isLevelComplete false
    |> set_narrativeIndex 0
    |> set_draggingNodeId None
    |> set_sequenceOrder seq
    |> set_nextSequenceIndex 0
    |> set_tetheredNodeId None
    |> set_bubblesPopped 0
    |> set_fragmentsCollected 0
    |> set_playerScale 1%float
    |> set_leafHealth 0%float
    |> set_rainLevel 0%float
    |> set_isRaining false
    |> set_isInteractiveHover false.

Definition resetGame (rnd : nat -> float) (s : GameState) : GameState :=
  startLevel rnd PROLOGUE s.

(** ** The world around the store: timers and audio *)

Inductive Sound := BubblePop | FloodSound | SunExtinguish.

#[global] Instance Sound_eq_dec : EqDecision Sound.
Proof. solve_decision. Defined.

(** [timers] maps the handle of every live interval to the value of the
    local [hasTriggeredExtinguish] of the [triggerRain] call that started
    it; [nextHandle] is the handle the next [setInterval] returns;
    [sounds] is the log of the audio calls, oldest first. *)
Record World := {
  store : GameState;
  timers : gmap nat bool;
  nextHandle : nat;
  sounds : list Sound
}.

Definition initialWorld : World :=
  {| store := initialState; timers := ∅; nextHandle := 0; sounds := [] |}.

Definition on_store (f : GameState -> GameState) (w : World) : World :=
  {| store := f (store w); timers := timers w; nextHandle := nextHandle w;
     sounds := sounds w |}.

Definition play (snd : Sound) (w : World) : World :=
  {| store := store w; timers := timers w; nextHandle := nextHandle w;
     sounds := sounds w ++ [snd] |}.

Definition triggerRain (w : World) : World :=
  {| store := store w |> set_isRaining true |> set_isInteractiveHover false;
     timers := <[nextHandle w := false]> (timers w);
     nextHandle := S (nextHandle w);
     sounds := sounds w ++ [FloodSound] |}.

(** One run of the callback of the interval [handle] (lines 325-341).
    A handle that is not live has no callback to run. *)
Definition tick (handle : nat) (w : World) : World :=
  match timers w !! handle with
  | None => w
  | Some hasTriggeredExtinguish =>
      let rainLevel := rainLevel (store w) in
      if (20 <=? rainLevel)%float then
        {| store := store w |> set_isLevelComplete true |> set_narrativeIndex 1;
           timers := delete handle (timers w);
           nextHandle := nextHandle w;
           sounds := sounds w |}
      else
        let nextLevel := (rainLevel + 0.04)%float in
        let extinguish := negb hasTriggeredExtinguish && (6.0 <? nextLevel)%float in
        {| store := store w |> set_rainLevel nextLevel;
           timers := <[handle := hasTriggeredExtinguish || extinguish]> (timers w);
           nextHandle := nextHandle w;
           sounds := sounds w ++ (if extinguish then [SunExtinguish] else []) |}
  end.

(** The calls into the store, and [Tick], the firing of an interval. *)
Inductive Action :=
  | SetCursorWorldPos (pos : Vec3)
  | SetMouseDown (isDown : bool)
  | SetHoveredNode (id : option string)
  | SetInteractiveHover (isHover : bool)
  | StartDragConnection (id : string)
  | CancelDrag
  | CompleteConnection (targetId : string)
  | UpdatePlayerPos (pos : Vec3)
  | AdvanceNarrative
  | StartLevel (rnd : nat -> float) (level : LevelType)
  | ResetGame (rnd : nat -> float)
  | SetTetheredNode (id : option string)
  | PopBubble (rnd : nat -> float) (id : string)
  | AbsorbFragment (id : string)
  | GrowPlayer (amount : float)
  | HealLeaf (amount : float)
  | TriggerRain
  | SelectVehicle (type : string)
  | Tick (handle : nat).

Definition step (a : Action) (w : World) : World :=
  match a with
  | SetCursorWorldPos pos => on_store (setCursorWorldPos pos) w
  | SetMouseDown isDown => on_store (setMouseDown isDown) w
  | SetHoveredNode id => on_store (setHoveredNode id) w
  | SetInteractiveHover isHover => on_store (setInteractiveHover isHover) w
  | StartDragConnection id => on_store (startDragConnection id) w
  | CancelDrag => on_store cancelDrag w
  | CompleteConnection targetId => on_store (completeConnection targetId) w
  | UpdatePlayerPos pos => on_store (updatePlayerPos pos) w
  | AdvanceNarrative => on_store advanceNarrative w
  | StartLevel rnd level => on_store (startLevel rnd level) w
  | ResetGame rnd => on_store (resetGame rnd) w
  | SetTetheredNode id => on_store (setTetheredNode id) w
  | PopBubble rnd id => on_store (popBubble rnd id) (play BubblePop w)
  | AbsorbFragment id => on_store (absorbFragment id) w
  | GrowPlayer amount => on_store (growPlayer amount) w
  | HealLeaf amount => on_store (healLeaf amount) w
  | TriggerRain => triggerRain w
  | SelectVehicle type => on_store (selectVehicle type) w
  | Tick handle => tick handle w
  end.

(** The actions are applied oldest first. *)
Definition run (acts : list Action) (w : World) : World :=
  foldl (fun w a => step a w) w acts.

(** The worlds the store gets into from its creation by actions that
    each satisfy [P] in the state they are applied to. *)
Inductive reachable_by (P : Action -> GameState -> Prop) : World -> Prop :=
  | reachable_init : reachable_by P initialWorld
  | reachable_step a w :
      reachable_by P w -> P a (store w) -> reachable_by P (step a w).

(** The worlds the store can be in: any number of actions after creation. *)
Definition reachable : World -> Prop := reachable_by (fun _ _ => True).

(** The actions that start a level over. *)
Definition starts_level (a : Action) : bool :=
  match a with
  | StartLevel _ _ | ResetGame _ => true
  | _ => false
  end.

(** A fixed oracle for the examples: every draw is 0.5. *)
Definition rnd_half : nat -> float := fun _ => 0.5%float.

(** The levels of the rain: [rainSeq n] is [rainLevel] after [n]
    additions of 0.04 to 0. *)
Fixpoint rainSeq (n : nat) : float :=
  match n with
  | 0 => 0%float
  | S k => (rainSeq k + 0.04)%float
  end.


(** The coverage test of [completeConnection], line 366, on the
    connections and nodes of a state. *)
Definition coverage (s : GameState) : bool :=
  (length (nodes s) <=? size (connectedSet (connections s)))
  && (0 <? length (nodes s)).

(** The undirected pair [{a, b}] is in the connection list. *)
Definition edge_present (a b : string) (cs : list (string * string)) : Prop :=
  (a, b) ∈ cs ∨ (b, a) ∈ cs.

(** [{a, b}] is the pair the sequence asks for next:
    [{sequenceOrder[i], sequenceOrder[i+1]}] at [i = nextSequenceIndex]. *)
Definition expected_pair (s : GameState) (a b : string) : Prop :=
  let i := nextSequenceIndex s in
  (sequenceOrder s !! i = Some a ∧ sequenceOrder s !! (i + 1) = Some b)
  ∨ (sequenceOrder s !! i = Some b ∧ sequenceOrder s !! (i + 1) = Some a).

(** No feature of the environment has this id. *)
Definition feature_absent (id : string) (s : GameState) : Prop :=
  ∀ f, f ∈ envFeatures s → feat_id f ≠ id.

(** [absorbFragment] called once for each id of the list, in order. *)
Definition absorbAll (ids : list string) (s : GameState) : GameState :=
  foldl (fun s id => absorbFragment id s) s ids.

(** The ids of the nodes of a state. *)
Definition node_ids (s : GameState) : list string := map node_id (nodes s).

(** The ids of the six nodes of CHAPTER_1 and of the five nodes of
    CONNECTION, as their generators name them. *)
Definition level1_ids : list string :=
  map node_id (gen_nodes (generateLevel1Env rnd_half)).
Definition tether_ids : list string :=
  map node_id (gen_nodes generateConnectionEnv).

(** An action names a node when the id it passes to the connection
    engine is the id of a node of the state. *)
Definition addresses_nodes (a : Action) (s : GameState) : Prop :=
  match a with
  | StartDragConnection id | CompleteConnection id
  | SetTetheredNode (Some id) => id ∈ node_ids s
  | _ => True
  end.

(** Both ends of every connection are ids of nodes of the state. *)
Definition connections_name_nodes (s : GameState) : Prop :=
  ∀ c, c ∈ connections s → c.1 ∈ node_ids s ∧ c.2 ∈ node_ids s.

(** The id is an end of some connection. *)
Definition touched (id : string) (cs : list (string * string)) : Prop :=
  ∃ c, c ∈ cs ∧ (c.1 = id ∨ c.2 = id).

(** The call takes the accepting branch: it appends an edge to [targetId]. *)
Definition accepted (targetId : string) (s : GameState) : Prop :=
  ∃ sourceId,
    connections (completeConnection targetId s)
    = connections s ++ [(sourceId, targetId)].

(** The k-th connection joins the k-th and the (k+1)-th id of the
    sequence order, in either direction. *)
Definition joins_consecutive (s : GameState) (k : nat) : Prop :=
  ∃ a b, sequenceOrder s !! k = Some a ∧ sequenceOrder s !! (k + 1) = Some b
    ∧ (connections s !! k = Some (a, b) ∨ connections s !! k = Some (b, a)).

(** The state of the sequence puzzle, in the CHAPTER_1 level: the
    sequence order is the six node ids, a connection was recorded for
    each step taken, the next step exists, and the k-th connection is
    the k-th step. *)
Definition sequence_inv (s : GameState) : Prop :=
  currentLevel s = CHAPTER_1 →
  sequenceOrder s = level1_ids ∧ node_ids s = level1_ids
  ∧ length (connections s) = nextSequenceIndex s
  ∧ nextSequenceIndex s < length (sequenceOrder s)
  ∧ ∀ k, k < length (connections s) → joins_consecutive s k.

(** The connections, the drag and the tether name nodes of the state. *)
Definition drag_inv (s : GameState) : Prop :=
  connections_name_nodes s
  ∧ (∀ id, draggingNodeId s = Some id → id ∈ node_ids s)
  ∧ (∀ id, tetheredNodeId s = Some id → id ∈ node_ids s).

(** The checks on the first 502 levels of the rain that the properties
    below read off: each level is at least 0 and below 20.04; it is at
    least 20 from the 501st on, and not before; it is above 6 from the
    150th on, and not before; and it is not above the next one. *)
Definition rain_check (n : nat) : bool :=
  (0 <=? rainSeq n)%float
  && (rainSeq n <? 20.04)%float
  && Bool.eqb (20 <=? rainSeq n)%float (501 <=? n)
  && Bool.eqb (6.0 <? rainSeq n)%float (150 <=? n)
  && (rainSeq n <=? rainSeq (S n))%float.

Definition rain_table_ok : bool := forallb rain_check (seq 0 502).

(** [rainLevel] is one of the levels of the rain. *)
Definition rain_inv (s : GameState) : Prop :=
  ∃ n, n ≤ 501 ∧ rainLevel s = rainSeq n.

(** The value is NaN or at most the ceiling. *)
Definition capped (ceiling x : float) : Prop :=
  PrimFloat.is_nan x = true ∨ (x <=? ceiling)%float = true.

(** The number of "extinguish" sounds that the ticks of the interval
    [handle] play along a run. *)
Fixpoint extinguishes (handle : nat) (acts : list Action) (w : World) : nat :=
  match acts with
  | [] => 0
  | a :: acts' =>
      (match a with
       | Tick h =>
           if decide (h = handle)
           then length (sounds (step a w)) - length (sounds w) else 0
       | _ => 0
       end) + extinguishes handle acts' (step a w)
  end.

(** Every live handle was issued: it is below [nextHandle]. *)
Definition timers_fresh (w : World) : Prop :=
  ∀ h, is_Some (timers w !! h) → h < nextHandle w.

(** The rain of the SUN level: the level is started, the rain triggered,
    and its interval, whose handle is [nextHandle w], ticks [n] times. *)
Definition rain_run (rnd : nat -> float) (w : World) (n : nat) : World :=
  run (StartLevel rnd SUN :: TriggerRain :: repeat (Tick (nextHandle w)) n) w.

(** The measures of a state are within their ceilings, and the rain at
    one of its levels. *)
Definition measure_inv (s : GameState) : Prop :=
  capped 10 (playerScale s) ∧ capped 100 (leafHealth s) ∧ rain_inv s.

(** The amount of a [growPlayer] or [healLeaf] call does not lower the
    measure it is added to: the sum is not below the old value. *)
Definition non_lowering (a : Action) (s : GameState) : Prop :=
  match a with
  | GrowPlayer amount => (playerScale s <=? playerScale s + amount)%float = true
  | HealLeaf amount => (leafHealth s <=? leafHealth s + amount)%float = true
  | _ => True
  end.

(** The scale is between 1 and 10 and the health between 0 and 100. *)
Definition ranges_inv (s : GameState) : Prop :=
  (1 <=? playerScale s)%float = true
  ∧ (playerScale s <=? 10)%float = true
  ∧ (0 <=? leafHealth s)%float = true
  ∧ (leafHealth s <=? 100)%float = true.

(** The number of [absorbFragment] calls in a run of actions. *)
Fixpoint absorbs (acts : list Action) : nat :=
  match acts with
  | [] => 0
  | AbsorbFragment _ :: acts' => S (absorbs acts')
  | _ :: acts' => absorbs acts'
  end.

(** ** Further notions used by the properties of the store *)

(** Two connections join the same two ids, in the same or in the
    opposite direction. *)
Definition same_pair (a b : string * string) : Prop :=
  (a.1 = b.1 ∧ a.2 = b.2) ∨ (a.1 = b.2 ∧ a.2 = b.1).

(** No connection joins an id to itself or starts at the empty id, and
    no two connections join the same two ids. *)
Definition simple_edges (cs : list (string * string)) : Prop :=
  (∀ c, c ∈ cs → c.1 ≠ c.2 ∧ c.1 ≠ "")
  ∧ ∀ i j a b, i < j → cs !! i = Some a → cs !! j = Some b → ¬ same_pair a b.

(** The [connected] flag of every node says whether the node is an end
    of a connection. *)
Definition flags_sync (s : GameState) : Prop :=
  ∀ n, n ∈ nodes s → connected n = true ↔ touched (node_id n) (connections s).

(** The setters of the two input fields that [startLevel] leaves alone. *)
Definition writes_input (a : Action) : bool :=
  match a with
  | SetHoveredNode _ | SetMouseDown _ => true
  | _ => false
  end.

(** ** The components that call the store (components/Puzzle.tsx, App)

    A component reads the store when it renders and is rendered again
    after every change of the store: its handlers see the state of the
    moment.  The two sounds the Node component plays come back with the
    new state. *)

Inductive UiSound := Connect | Flow.

(** [sequenceOrder.indexOf(id) === nextSequenceIndex]: the first
    position of the id in the sequence order is the next index. *)
Definition isNextInSequence (data : NodeData) (s : GameState) : bool :=
  bool_decide (currentLevel s = CHAPTER_1)
  && bool_decide (fst <$> list_find (fun x => x = node_id data) (sequenceOrder s)
                  = Some (nextSequenceIndex s)).

Definition isInteractive (data : NodeData) (s : GameState) : bool :=
  if decide (currentLevel s = CHAPTER_1) then isNextInSequence data s else true.

(** [handleDown] of the node [data]. *)
Definition handleDown (data : NodeData) (s : GameState) : GameState * list UiSound :=
  if (negb (isInteractive data s) || bool_decide (currentLevel s = CONNECTION))%bool
  then (s, [])
  else (startDragConnection (node_id data) s, [Flow]).

(** [onPointerUp] of the node [data]. *)
Definition handleUp (data : NodeData) (s : GameState) : GameState * list UiSound :=
  if decide (currentLevel s ≠ CONNECTION)
  then (completeConnection (node_id data) s, [Connect])
  else (s, []).

Inductive PointerEvent := PointerOver | PointerOut | PointerDown | PointerUp.

(** The pointer handlers of the node [data]. *)
Definition nodeEvent (e : PointerEvent) (data : NodeData) (s : GameState)
    : GameState * list UiSound :=
  match e with
  | PointerOver => (setHoveredNode (Some (node_id data)) s, [])
  | PointerOut => (setHoveredNode None s, [])
  | PointerDown => handleDown data s
  | PointerUp => handleUp data s
  end.

(** The line PuzzleManager draws for a connection: its two end points
    and its colour, or nothing ([null]) when an id is the id of no
    node. *)
Definition connectionLine (s : GameState) (c : string * string)
    : option (Vec3 * Vec3 * string) :=
  match find (fun n => String.eqb (node_id n) c.1) (nodes s),
        find (fun n => String.eqb (node_id n) c.2) (nodes s) with
  | Some nA, Some nB =>
      Some (node_position nA, node_position nB,
            if decide (currentLevel s = CHAPTER_1) then "#00ffff" else "#ffd700")
  | _, _ => None
  end.

Definition connectionLines (s : GameState) : list (option (Vec3 * Vec3 * string)) :=
  map (connectionLine s) (connections s).

(** [handleKeyDown] of App: the level a key starts, if any. *)
Definition handleKeyDown (key : string) : option LevelType :=
  if String.eqb key "1" then Some PROLOGUE
  else if String.eqb key "2" then Some CHAPTER_1
  else if String.eqb key "3" then Some NAME
  else if String.eqb key "4" then Some CHEWING
  else if String.eqb key "5" then Some WIND
  else if String.eqb key "6" then Some TRAVEL
  else if String.eqb key "7" then Some CONNECTION
  else if String.eqb key "8" then Some HOME
  else if String.eqb key "9" then Some SUN
  else None.

(** What the user does: a pointer event on a node that is on screen, a
    key, or anything else that reaches the store without naming a node
    (the mechanics, the rain and its ticks, the narrative, the cursor). *)
Inductive Gesture :=
  | OnNode (e : PointerEvent) (data : NodeData)
  | KeyDown (rnd : nat -> float) (key : string)
  | Other (a : Action).

(** The actions [Other] stands for: every action but the three that
    take a node id and the two that start a level. *)
Definition names_no_node (a : Action) : bool :=
  match a with
  | StartDragConnection _ | CompleteConnection _ | SetTetheredNode _
  | StartLevel _ _ | ResetGame _ => false
  | _ => true
  end.

Definition gesture (g : Gesture) (w : World) : World :=
  match g with
  | OnNode e data => on_store (fun s => (nodeEvent e data s).1) w
  | KeyDown rnd key =>
      match handleKeyDown key with
      | Some level => step (StartLevel rnd level) w
      | None => w
      end
  | Other a => step a w
  end.

(** The worlds the user can bring about: pointer events go to nodes of
    the node list of the moment. *)
Inductive played : World -> Prop :=
  | played_init : played initialWorld
  | played_gesture g w :
      played w ->
      match g with
      | OnNode _ data => data ∈ nodes (store w)
      | KeyDown _ _ => True
      | Other a => names_no_node a = true
      end ->
      played (gesture g w).

(** The k-th connection goes from the k-th to the (k+1)-th id of the
    sequence order. *)
Definition joins_forward (s : GameState) (k : nat) : Prop :=
  ∃ a b, sequenceOrder s !! k = Some a ∧ sequenceOrder s !! (k + 1) = Some b
    ∧ connections s !! k = Some (a, b).

(** What the Node component maintains: nothing is tethered and nothing
    connected in the CONNECTION level; in the CHAPTER_1 level a recorded
    drag starts at the next node of the sequence and every connection
    goes forwards. *)
Definition played_inv (s : GameState) : Prop :=
  tetheredNodeId s = None
  ∧ (currentLevel s = CONNECTION → connections s = [])
  ∧ (currentLevel s = CHAPTER_1 →
     (∀ d, draggingNodeId s = Some d →
           sequenceOrder s !! nextSequenceIndex s = Some d)
     ∧ ∀ k, k < length (connections s) → joins_forward s k).

(** * Properties *)

(** ** The shape of [completeConnection] *)

(** Every call either only clears the drag or takes the accepting branch. *)
Lemma completeConnection_cases targetId s :
  completeConnection targetId s = set_draggingNodeId None s
  ∨ ∃ sourceId, sourceIdOf s = Some sourceId
      ∧ completeConnection targetId s = acceptConnection sourceId targetId s.
Proof.
  unfold completeConnection.
  destruct (sourceIdOf s) as [sourceId|]; [|by left].
  repeat (case_match; try by left); right; eauto.
Qed.

Lemma acceptConnection_nodes_length sourceId targetId s :
  length (nodes (acceptConnection sourceId targetId s)) = length (nodes s).
Proof. unfold acceptConnection; simpl. by rewrite length_map. Qed.

Lemma acceptConnection_node_ids sourceId targetId s :
  map node_id (nodes (acceptConnection sourceId targetId s)) = map node_id (nodes s).
Proof.
  unfold acceptConnection; simpl. rewrite map_map.
  apply map_ext; intros n. by case_match.
Qed.

Lemma acceptConnection_coverage sourceId targetId s :
  isLevelComplete (acceptConnection sourceId targetId s)
  = coverage (acceptConnection sourceId targetId s).
Proof.
  unfold coverage. rewrite acceptConnection_nodes_length. reflexivity.
Qed.

(** ** The completion flag *)





(** ** Level transitions *)

(** C7, as the code has it: [startLevel] writes the generator's nodes
    and features, the spawn point as player and cursor position, the
    level, its mode and its sequence order, and clears the connections,
    the drag, the tether, the sequence index, the mechanic counters, the
    completion flag, the interactive-hover flag and the narrative index;
    it does not write [hoveredNodeId] and [isMouseDown], which keep
    their values.  [resetGame] is [startLevel] of PROLOGUE. *)
Theorem C7_startLevel rnd level s :
  let s' := startLevel rnd level s in
  (currentLevel s' = level ∧ interactionMode s' = modeOf level
   ∧ sequenceOrder s' = seqOf level (generate rnd level))
  ∧ (nodes s' = gen_nodes (generate rnd level)
     ∧ envFeatures s' = gen_env (generate rnd level))
  ∧ (playerPos s' = START_POSITIONS level
     ∧ cursorWorldPos s' = START_POSITIONS level)
  ∧ (connections s' = [] ∧ draggingNodeId s' = None ∧ tetheredNodeId s' = None
     ∧ nextSequenceIndex s' = 0)
  ∧ (bubblesPopped s' = 0 ∧ fragmentsCollected s' = 0
     ∧ playerScale s' = 1%float ∧ leafHealth s' = 0%float
     ∧ rainLevel s' = 0%float ∧ isRaining s' = false)
  ∧ (isLevelComplete s' = false ∧ isInteractiveHover s' = false
     ∧ narrativeIndex s' = 0)
  ∧ (hoveredNodeId s' = hoveredNodeId s ∧ isMouseDown s' = isMouseDown s)
  ∧ (resetGame rnd s = startLevel rnd PROLOGUE s
     ∧ currentLevel (resetGame rnd s) = PROLOGUE
     ∧ nodes (resetGame rnd s) = []
     ∧ envFeatures (resetGame rnd s) = gen_env generatePrologueEnv).
Proof. cbv zeta. repeat split. Qed.

(** C7 as stated fails for the hover state: a node id hovered before
    the transition is still the hovered node id after it, and so is a
    pressed mouse button. *)
Lemma C7_counterexample :
  let w := run [StartLevel rnd_half CHAPTER_1; SetHoveredNode (Some "n1-0");
                SetMouseDown true; StartLevel rnd_half NAME] initialWorld in
  hoveredNodeId (store w) = Some "n1-0" ∧ isMouseDown (store w) = true.
Proof. vm_compute. auto. Qed.

(** ** Rejected and idle actions *)

Lemma connection_exists_spec a b cs :
  connection_exists a b cs = true ↔ edge_present a b cs.
Proof.
  unfold connection_exists, edge_present. rewrite existsb_exists. split.
  - intros ([x y] & Hin & H). apply list_elem_of_In in Hin. simpl in H.
    apply orb_true_iff in H as [H|H]; apply andb_true_iff in H as [H1 H2];
      apply String.eqb_eq in H1, H2; subst; auto.
  - intros [H|H]; apply list_elem_of_In in H; eexists; (split; [exact H|]);
      simpl; rewrite !String.eqb_refl; simpl; auto using orb_true_r.
Qed.

Lemma completeConnection_no_source targetId s :
  sourceIdOf s = None →
  completeConnection targetId s = cancelDrag s.
Proof. intros H. unfold completeConnection. by rewrite H. Qed.

Lemma completeConnection_repeated targetId sourceId s :
  sourceIdOf s = Some sourceId →
  edge_present sourceId targetId (connections s) →
  completeConnection targetId s = cancelDrag s.
Proof.
  intros Hsrc Hex%connection_exists_spec. unfold completeConnection.
  rewrite Hsrc, Hex. by case_match.
Qed.

Lemma completeConnection_out_of_order targetId sourceId s :
  sourceIdOf s = Some sourceId → currentLevel s = CHAPTER_1 →
  ¬ expected_pair s sourceId targetId →
  completeConnection targetId s = cancelDrag s.
Proof.
  intros Hsrc Hlvl Hexp. unfold completeConnection. rewrite Hsrc.
  repeat (case_match; try done).
  exfalso. apply Hexp. unfold expected_pair.
  match goal with
  | H : negb (_ && _ || _) = false |- _ => rename H into Hv
  end.
  apply negb_false_iff, orb_true_iff in Hv.
  destruct Hv as [Hv|Hv]; apply andb_true_iff in Hv as [Ha Hb];
    apply bool_decide_eq_true in Ha, Hb; auto.
Qed.

Lemma popBubble_absent rnd id s : feature_absent id s → popBubble rnd id s = s.
Proof.
  intros Habs. unfold popBubble.
  destruct (find _ _) as [f|] eqn:Hfind; [|done].
  apply find_some in Hfind as [Hin Heq]. apply list_elem_of_In in Hin.
  apply String.eqb_eq in Heq. by destruct (Habs f Hin).
Qed.

Lemma cancelDrag_idle s : draggingNodeId s = None → cancelDrag s = s.
Proof. destruct s; simpl; intros ->; reflexivity. Qed.

(** C3, as the code has it: a [completeConnection] that finds no source
    (no drag, or no tether in the CONNECTION level), that repeats an edge
    already present in either direction, or that submits, in the
    CHAPTER_1 level, a pair other than the expected one, does what
    [cancelDrag] does: it sets [draggingNodeId] to null and writes
    nothing else, so the state is unchanged exactly when no drag was
    recorded; [popBubble] with an id that no feature carries leaves the
    state unchanged (it has still played its sound).  Nothing is said
    here of [absorbFragment] on an absent id. *)
Theorem C3_rejections targetId s :
  ((sourceIdOf s = None
    ∨ ∃ sourceId, sourceIdOf s = Some sourceId
        ∧ (edge_present sourceId targetId (connections s)
           ∨ (currentLevel s = CHAPTER_1
              ∧ ¬ expected_pair s sourceId targetId))) →
   completeConnection targetId s = cancelDrag s
   ∧ (completeConnection targetId s = s ↔ draggingNodeId s = None))
  ∧ (∀ rnd id w,
       feature_absent id (store w) →
       store (step (PopBubble rnd id) w) = store w).
Proof.
  split.
  - intros Hrej.
    assert (completeConnection targetId s = cancelDrag s) as ->.
    { destruct Hrej as [Hnone|(sourceId & Hsrc & [Hrep|[Hlvl Hexp]])];
        eauto using completeConnection_no_source, completeConnection_repeated,
          completeConnection_out_of_order. }
    split; [done|]. split; [|apply cancelDrag_idle].
    intros <-. reflexivity.
  - intros rnd id w Habs. simpl. by apply popBubble_absent.
Qed.

(** In a fresh CHAPTER_1 level nothing is dragged: completing a
    connection changes nothing. *)
Lemma C3_rejections_witness :
  completeConnection "n1-1" (startLevel rnd_half CHAPTER_1 initialState)
  = startLevel rnd_half CHAPTER_1 initialState.
Proof.
  apply (proj1 (C3_rejections "n1-1" (startLevel rnd_half CHAPTER_1 initialState))).
  - left. reflexivity.
  - reflexivity.
Defined.

(** C3 as stated fails: an out-of-order pair and a repeated edge both
    clear the recorded drag, and [absorbFragment] on an id that no
    feature carries still counts a fragment. *)
Lemma C3_counterexample :
  let s := store (run [StartLevel rnd_half CHAPTER_1;
                       StartDragConnection "n1-0"] initialWorld) in
  let s' := store (run [StartLevel rnd_half CHAPTER_1;
                        StartDragConnection "n1-0"; CompleteConnection "n1-1";
                        StartDragConnection "n1-1"] initialWorld) in
  let n := store (run [StartLevel rnd_half NAME] initialWorld) in
  (¬ expected_pair s "n1-0" "n1-2"
   ∧ draggingNodeId s = Some "n1-0"
   ∧ draggingNodeId (completeConnection "n1-2" s) = None)
  ∧ (edge_present "n1-1" "n1-0" (connections s')
     ∧ draggingNodeId s' = Some "n1-1"
     ∧ draggingNodeId (completeConnection "n1-0" s') = None)
  ∧ (feature_absent "frag-bubble-0-0" n
     ∧ fragmentsCollected n = 0
     ∧ fragmentsCollected (absorbFragment "frag-bubble-0-0" n) = 1).
Proof.
  cbv zeta. split; [|split].
  - split; [|by vm_compute].
    intros [[_ H]|[H _]]; vm_compute in H; discriminate.
  - split; [|by vm_compute]. right. vm_compute. left.
  - split; [|by vm_compute].
    intros f Hf. vm_compute in Hf.
    repeat (apply elem_of_cons in Hf as [->|Hf]; [by vm_compute|]).
    by apply elem_of_nil in Hf.
Qed.

(** ** Fragments *)

Lemma absorbFragment_fields id s :
  fragmentsCollected (absorbFragment id s) = fragmentsCollected s + 1
  ∧ isLevelComplete (absorbFragment id s) = (5 <=? fragmentsCollected s + 1)
  ∧ narrativeIndex (absorbFragment id s)
    = (if 5 <=? fragmentsCollected s + 1 then 1 else narrativeIndex s)
  ∧ envFeatures (absorbFragment id s)
    = filter (fun f => feat_id f ≠ id) (envFeatures s).
Proof. done. Qed.

Lemma absorbAll_snoc ids id s :
  absorbAll (ids ++ [id]) s = absorbFragment id (absorbAll ids s).
Proof. unfold absorbAll. by rewrite foldl_snoc. Qed.

Lemma absorbAll_spec ids s :
  fragmentsCollected (absorbAll ids s) = fragmentsCollected s + length ids
  ∧ (ids ≠ [] →
     isLevelComplete (absorbAll ids s) = (5 <=? fragmentsCollected s + length ids)
     ∧ narrativeIndex (absorbAll ids s)
       = if 5 <=? fragmentsCollected s + length ids then 1 else narrativeIndex s).
Proof.
  induction ids as [|id ids IH] using rev_ind.
  - split; [simpl; lia|congruence].
  - destruct IH as [IHc IHrest]. rewrite absorbAll_snoc, length_app.
    destruct (absorbFragment_fields id (absorbAll ids s)) as (-> & -> & -> & _).
    rewrite IHc. simpl length. rewrite Nat.add_assoc.
    split; [done|]. intros _. split; [done|].
    destruct (5 <=? fragmentsCollected s + length ids + 1) eqn:E; [done|].
    destruct (decide (ids = [])) as [->|Hne]; [done|].
    destruct (IHrest Hne) as [_ ->].
    case_match; [|done]. apply Nat.leb_le in H. apply Nat.leb_gt in E. lia.
Qed.

(** Only [absorbFragment] and the level transitions write the count
    of the fragments. *)
Lemma step_fragments a w :
  starts_level a = false →
  fragmentsCollected (store (step a w))
  = fragmentsCollected (store w) + absorbs [a].
Proof.
  intros Hs. destruct a; try discriminate Hs;
    cbn [step on_store play store absorbs]; try apply plus_n_O.
  - destruct (completeConnection_cases targetId (store w))
      as [->|(src & _ & ->)]; apply plus_n_O.
  - unfold popBubble. case_match; apply plus_n_O.
  - reflexivity.
  - unfold selectVehicle. case_match; apply plus_n_O.
  - unfold tick. repeat case_match; apply plus_n_O.
Qed.

Lemma run_fragments acts w :
  Forall (fun a => starts_level a = false) acts →
  fragmentsCollected (store (run acts w))
  = fragmentsCollected (store w) + absorbs acts.
Proof.
  intros Hall. revert w. induction Hall as [|a acts Ha _ IH]; intros w.
  { apply plus_n_O. }
  cbn [run foldl]. fold (run acts (step a w)).
  rewrite IH, (step_fragments a w Ha).
  destruct a; cbn [absorbs]; lia.
Qed.

(** C8, as the code has it: [absorbFragment(id)] keeps exactly the
    features whose id is not [id] (so the FRAGMENT with that id is gone)
    and adds 1 to [fragmentsCollected], which no other action of the
    level writes.  Every call writes the flag and may write the index:
    the k-th call of a level, whatever comes in between, sets
    [isLevelComplete] to [k >= 5], and sets [narrativeIndex] to 1 when
    [k >= 5] and leaves it alone otherwise.  So the fifth call makes
    the level complete with index 1, and a further call leaves both as
    they are when they still are true and 1, as in an uninterrupted
    series of calls; what another action wrote in between, it
    overwrites. *)
Theorem C8_absorbFragment :
  (∀ id s,
     envFeatures (absorbFragment id s)
       = filter (fun f => feat_id f ≠ id) (envFeatures s)
     ∧ (∀ f, f ∈ envFeatures (absorbFragment id s)
             ↔ f ∈ envFeatures s ∧ feat_id f ≠ id)
     ∧ fragmentsCollected (absorbFragment id s) = fragmentsCollected s + 1)
  ∧ (∀ ids s,
       fragmentsCollected s = 0 → isLevelComplete s = false →
       let s' := absorbAll ids s in
       fragmentsCollected s' = length ids
       ∧ (length ids < 5 →
          isLevelComplete s' = false ∧ narrativeIndex s' = narrativeIndex s)
       ∧ (5 ≤ length ids →
          isLevelComplete s' = true ∧ narrativeIndex s' = 1
          ∧ ∀ id, isLevelComplete (absorbFragment id s') = isLevelComplete s'
                  ∧ narrativeIndex (absorbFragment id s') = narrativeIndex s'))
  ∧ (∀ rnd level acts id w,
       Forall (fun a => starts_level a = false) acts →
       let w1 := run acts (step (StartLevel rnd level) w) in
       let w2 := step (AbsorbFragment id) w1 in
       fragmentsCollected (store w1) = absorbs acts
       ∧ isLevelComplete (store w2) = (5 <=? absorbs acts + 1)
       ∧ narrativeIndex (store w2)
         = (if 5 <=? absorbs acts + 1 then 1 else narrativeIndex (store w1))
       ∧ (4 ≤ absorbs acts →
          isLevelComplete (store w1) = true → narrativeIndex (store w1) = 1 →
          isLevelComplete (store w2) = isLevelComplete (store w1)
          ∧ narrativeIndex (store w2) = narrativeIndex (store w1))).
Proof.
  split; [|split].
  - intros id s. split; [done|]. split; [|done].
    intros f. destruct (absorbFragment_fields id s) as (_ & _ & _ & ->).
    rewrite list_elem_of_filter. tauto.
  - intros ids s H0 Hc. cbv zeta.
    destruct (absorbAll_spec ids s) as [Hn Hrest]. rewrite H0 in Hn, Hrest.
    rewrite Nat.add_0_l in Hn, Hrest. split; [done|]. split.
    + intros Hlt. destruct (decide (ids = [])) as [->|Hne]; [done|].
      destruct (Hrest Hne) as [-> ->].
      apply Nat.leb_gt in Hlt. by rewrite Hlt.
    + intros Hge. assert (ids ≠ []) as Hne by (intros ->; simpl in Hge; lia).
      destruct (Hrest Hne) as [Hc' Hn'].
      apply Nat.leb_le in Hge as Hge'. rewrite Hge' in Hc', Hn'.
      split; [done|]. split; [done|]. intros id.
      destruct (absorbFragment_fields id (absorbAll ids s)) as (_ & -> & -> & _).
      rewrite Hn, Hc', Hn'.
      assert ((5 <=? length ids + 1) = true) as -> by (apply Nat.leb_le; lia).
      done.
  - intros rnd level acts id w Hall. cbv zeta.
    set (w1 := run acts (step (StartLevel rnd level) w)).
    assert (fragmentsCollected (store w1) = absorbs acts) as Hn.
    { unfold w1. by rewrite (run_fragments acts _ Hall). }
    cbn [step on_store store].
    destruct (absorbFragment_fields id (store w1)) as (_ & -> & -> & _).
    rewrite Hn. split; [done|]. split; [done|]. split; [done|].
    intros H4 -> ->.
    assert ((5 <=? absorbs acts + 1) = true) as -> by (apply Nat.leb_le; lia).
    done.
Qed.

(** Five fragments absorbed in the NAME level, after two bubbles were
    popped. *)
Lemma C8_absorbFragment_witness :
  let s := store (run [StartLevel rnd_half NAME; PopBubble rnd_half "bubble-0";
                       PopBubble rnd_half "bubble-1"] initialWorld) in
  let ids := ["frag-bubble-0-0"; "frag-bubble-0-1"; "frag-bubble-0-2";
              "frag-bubble-1-0"; "frag-bubble-1-1"] in
  let s' := absorbAll ids s in
  (fragmentsCollected s = 0 ∧ isLevelComplete s = false ∧ 5 ≤ length ids)
  ∧ isLevelComplete s' = true ∧ narrativeIndex s' = 1
  ∧ isLevelComplete (absorbFragment "frag-bubble-1-2" s') = isLevelComplete s'
  ∧ narrativeIndex (absorbFragment "frag-bubble-1-2" s') = narrativeIndex s'.
Proof.
  intros s ids s'.
  assert (fragmentsCollected s = 0) as H0 by reflexivity.
  assert (isLevelComplete s = false) as Hc by reflexivity.
  assert (5 ≤ length ids) as H5 by (simpl; lia).
  split; [by repeat split|].
  destruct (proj1 (proj2 C8_absorbFragment) ids s H0 Hc) as (_ & _ & Hfive).
  destruct (Hfive H5) as (Hc' & Hn' & Hmore).
  split; [exact Hc'|split; [exact Hn'|exact (Hmore "frag-bubble-1-2")]].
Defined.

(** C8 as stated fails for a further call that does not follow at
    once: after the fifth fragment of the NAME level, with the level
    complete and the index at 1, [advanceNarrative] takes the index to
    2 and a sixth [absorbFragment] sets it back to 1; [healLeaf(0)]
    takes the flag to false and a sixth [absorbFragment] sets it back
    to true. *)
Lemma C8_counterexample :
  let w := run [StartLevel rnd_half NAME; PopBubble rnd_half "bubble-0";
                PopBubble rnd_half "bubble-1";
                AbsorbFragment "frag-bubble-0-0"; AbsorbFragment "frag-bubble-0-1";
                AbsorbFragment "frag-bubble-0-2"; AbsorbFragment "frag-bubble-1-0";
                AbsorbFragment "frag-bubble-1-1"] initialWorld in
  let wn := step AdvanceNarrative w in
  let wh := step (HealLeaf 0%float) w in
  (fragmentsCollected (store w) = 5 ∧ isLevelComplete (store w) = true
   ∧ narrativeIndex (store w) = 1)
  ∧ (narrativeIndex (store wn) = 2
     ∧ narrativeIndex (store (step (AbsorbFragment "frag-bubble-1-2") wn)) = 1)
  ∧ (isLevelComplete (store wh) = false
     ∧ isLevelComplete (store (step (AbsorbFragment "frag-bubble-1-2") wh)) = true).
Proof. vm_compute. auto 10. Qed.

(** ** Frames: what the actions leave alone *)

Lemma tick_frame handle w :
  let s := store w in let s' := store (tick handle w) in
  currentLevel s' = currentLevel s ∧ nodes s' = nodes s
  ∧ connections s' = connections s ∧ sequenceOrder s' = sequenceOrder s
  ∧ nextSequenceIndex s' = nextSequenceIndex s
  ∧ draggingNodeId s' = draggingNodeId s ∧ tetheredNodeId s' = tetheredNodeId s.
Proof. unfold tick. by repeat case_match. Qed.

(** Only [completeConnection] and the level transitions write the
    level, the nodes, the connections and the sequence. *)
Lemma step_frame a w :
  starts_level a = false → (∀ targetId, a ≠ CompleteConnection targetId) →
  let s := store w in let s' := store (step a w) in
  currentLevel s' = currentLevel s ∧ nodes s' = nodes s
  ∧ connections s' = connections s ∧ sequenceOrder s' = sequenceOrder s
  ∧ nextSequenceIndex s' = nextSequenceIndex s.
Proof.
  intros Hs Hc. destruct a; try done; simpl.
  - by destruct (Hc targetId).
  - unfold popBubble; simpl. by case_match.
  - unfold selectVehicle. by case_match.
  - destruct (tick_frame handle w) as (? & ? & ? & ? & ? & _). done.
Qed.

Lemma cancelDrag_frame s :
  currentLevel (cancelDrag s) = currentLevel s ∧ nodes (cancelDrag s) = nodes s
  ∧ connections (cancelDrag s) = connections s
  ∧ sequenceOrder (cancelDrag s) = sequenceOrder s
  ∧ nextSequenceIndex (cancelDrag s) = nextSequenceIndex s
  ∧ tetheredNodeId (cancelDrag s) = tetheredNodeId s.
Proof. done. Qed.

(** What an accepted connection passed: the guards of lines 350-361. *)
Lemma completeConnection_accepting targetId s :
  completeConnection targetId s = cancelDrag s
  ∨ ∃ sourceId,
      sourceIdOf s = Some sourceId
      ∧ sourceId ≠ targetId
      ∧ ¬ edge_present sourceId targetId (connections s)
      ∧ (currentLevel s = CHAPTER_1 → expected_pair s sourceId targetId)
      ∧ completeConnection targetId s = acceptConnection sourceId targetId s.
Proof.
  unfold completeConnection.
  destruct (sourceIdOf s) as [sourceId|]; [|by left].
  destruct (_ || _) eqn:Hsame; [by left|].
  apply orb_false_iff in Hsame as [_ Hne]. apply String.eqb_neq in Hne.
  destruct (connection_exists _ _ _) eqn:Hex; [by left|]. simpl.
  assert (¬ edge_present sourceId targetId (connections s)) as Hnew.
  { rewrite <- connection_exists_spec. by rewrite Hex. }
  destruct (decide (currentLevel s = CHAPTER_1)) as [Hlvl|Hlvl].
  - destruct (_ || _) eqn:Hfalsy; [by left|].
    destruct (negb _) eqn:Hvalid; [by left|].
    right. exists sourceId. repeat split; try done. intros _.
    apply negb_false_iff, orb_true_iff in Hvalid. unfold expected_pair.
    destruct Hvalid as [Hv|Hv]; apply andb_true_iff in Hv as [Ha Hb];
      apply bool_decide_eq_true in Ha, Hb; auto.
  - right. exists sourceId. by repeat split.
Qed.

(** ** The sequence puzzle of CHAPTER_1 *)

Lemma acceptConnection_fields sourceId targetId s :
  let s' := acceptConnection sourceId targetId s in
  currentLevel s' = currentLevel s
  ∧ sequenceOrder s' = sequenceOrder s
  ∧ connections s' = connections s ++ [(sourceId, targetId)]
  ∧ nextSequenceIndex s'
    = (if decide (currentLevel s = CHAPTER_1)
       then S (nextSequenceIndex s) else nextSequenceIndex s)
  ∧ narrativeIndex s' = narrativeIndex s + 1
  ∧ draggingNodeId s' = None
  ∧ tetheredNodeId s' = tetheredNodeId s.
Proof. done. Qed.

Lemma joins_consecutive_ext s s' k :
  sequenceOrder s' = sequenceOrder s →
  connections s' !! k = connections s !! k →
  joins_consecutive s k → joins_consecutive s' k.
Proof.
  intros Hseq Hk (a & b & Ha & Hb & Hc). exists a, b.
  by rewrite Hseq, Hk.
Qed.

Lemma sequence_inv_frame s s' :
  currentLevel s' = currentLevel s → nodes s' = nodes s →
  connections s' = connections s → sequenceOrder s' = sequenceOrder s →
  nextSequenceIndex s' = nextSequenceIndex s →
  sequence_inv s → sequence_inv s'.
Proof.
  unfold sequence_inv, node_ids. intros Hl Hn Hc Hs Hi Hinv Hlvl.
  rewrite Hl in Hlvl. destruct (Hinv Hlvl) as (? & ? & ? & ? & Hj).
  rewrite Hn, Hc, Hs, Hi. repeat split; try done.
  intros k Hk. apply (joins_consecutive_ext s); [done|by rewrite Hc|auto].
Qed.

Lemma sequence_inv_accept sourceId targetId s :
  (currentLevel s = CHAPTER_1 → expected_pair s sourceId targetId) →
  sequence_inv s → sequence_inv (acceptConnection sourceId targetId s).
Proof.
  intros Hexp Hinv.
  destruct (acceptConnection_fields sourceId targetId s)
    as (Hl & Hs & Hc & Hi & _).
  unfold sequence_inv. rewrite Hl. intros Hlvl.
  destruct (Hinv Hlvl) as (Hseq & Hids & Hlen & Hlt & Hj).
  specialize (Hexp Hlvl). rewrite decide_True in Hi by done.
  unfold node_ids. rewrite acceptConnection_node_ids, Hs, Hc, Hi, length_app.
  simpl. repeat split; try done; try lia.
  - destruct Hexp as [[_ H]|[_ H]]; apply lookup_lt_Some in H; lia.
  - intros k Hk. destruct (decide (k < length (connections s))) as [Hold|Hnew].
    + apply (joins_consecutive_ext s); [done| |auto].
      rewrite Hc. by apply lookup_app_l.
    + assert (k = nextSequenceIndex s) as -> by lia.
      unfold joins_consecutive. rewrite Hs, Hc, <- Hlen.
      rewrite list_lookup_middle by done. rewrite Hlen.
      destruct Hexp as [[Ha Hb]|[Ha Hb]]; eauto 8.
Qed.

Lemma level1_ids_generated rnd :
  map node_id (gen_nodes (generateLevel1Env rnd)) = level1_ids.
Proof. reflexivity. Qed.

Lemma sequence_inv_startLevel rnd level s :
  sequence_inv (startLevel rnd level s).
Proof.
  intros Hlvl. change (level = CHAPTER_1) in Hlvl. subst level.
  repeat split; try done.
  - change (0 < length (map node_id (gen_nodes (generateLevel1Env rnd)))).
    rewrite level1_ids_generated. vm_compute. lia.
  - intros k Hk. change (k < 0) in Hk. lia.
Qed.

Lemma sequence_inv_reachable w : reachable w → sequence_inv (store w).
Proof.
  induction 1 as [|a w Hw IH _]; [done|].
  assert (starts_level a = false → (∀ targetId, a ≠ CompleteConnection targetId) →
          sequence_inv (store (step a w))) as Hframe.
  { intros Hs Hc. destruct (step_frame a w Hs Hc) as (? & ? & ? & ? & ?).
    by apply (sequence_inv_frame (store w)). }
  destruct a; cbn [step on_store play store];
    try (apply Hframe; [reflexivity|intros ?; discriminate]);
    [|apply sequence_inv_startLevel|unfold resetGame; apply sequence_inv_startLevel].
  destruct (completeConnection_accepting targetId (store w))
    as [->|(sourceId & _ & _ & _ & Hexp & ->)].
  - by apply (sequence_inv_frame (store w)).
  - by apply sequence_inv_accept.
Qed.

Lemma reachable_run P acts w :
  Forall (fun a => ∀ s, P a s) acts → reachable_by P w →
  reachable_by P (run acts w).
Proof.
  intros Hall. revert w. induction Hall as [|a acts Ha _ IH]; intros w Hw; [done|].
  simpl. apply IH. by constructor.
Qed.

Lemma reachable_after acts : reachable (run acts initialWorld).
Proof.
  apply reachable_run; [|constructor]. by apply Forall_forall.
Qed.

(** C10: at every reachable state of the CHAPTER_1 level the sequence
    order is the list of the six node ids, the number of connections
    equals [nextSequenceIndex], and for every k below it the k-th
    connection is the pair [sequenceOrder[k]], [sequenceOrder[k+1]], in
    one direction or the other. *)
Theorem C10_consecutive_prefix w :
  reachable w → currentLevel (store w) = CHAPTER_1 →
  sequenceOrder (store w) = level1_ids
  ∧ length (connections (store w)) = nextSequenceIndex (store w)
  ∧ ∀ k, k < nextSequenceIndex (store w) → joins_consecutive (store w) k.
Proof.
  intros Hw Hlvl.
  destruct (sequence_inv_reachable w Hw Hlvl) as (Hseq & _ & Hlen & _ & Hj).
  rewrite <- Hlen. auto.
Qed.

(** Two steps of the sequence, the second one drawn backwards. *)
Lemma C10_consecutive_prefix_witness :
  let w := run [StartLevel rnd_half CHAPTER_1;
                StartDragConnection "n1-0"; CompleteConnection "n1-1";
                StartDragConnection "n1-2"; CompleteConnection "n1-1"]
             initialWorld in
  connections (store w) = [("n1-0", "n1-1"); ("n1-2", "n1-1")]
  ∧ sequenceOrder (store w) = level1_ids
  ∧ length (connections (store w)) = nextSequenceIndex (store w)
  ∧ joins_consecutive (store w) 1.
Proof.
  intros w. split; [reflexivity|].
  destruct (C10_consecutive_prefix w) as (Hseq & Hlen & Hj).
  - apply reachable_after.
  - reflexivity.
  - split; [exact Hseq|split; [exact Hlen|]].
    apply Hj. vm_compute. lia.
Defined.

(** C4: in the CHAPTER_1 level an action that does not start a level
    either leaves the connections and [nextSequenceIndex] as they are, or
    is a [completeConnection] that appends the expected pair and adds
    exactly 1 to the index; at every reachable state of the level the
    index is at most [sequenceOrder.length - 1]; a [completeConnection]
    whose pair is not the expected one is rejected, connections and index
    unchanged; from a fresh level, dragging n1-0 onto n1-2 is rejected
    with the index at 0, and dragging n1-0 onto n1-1 is accepted with the
    index at 1. *)
Theorem C4_sequence_index :
  (∀ a w,
     currentLevel (store w) = CHAPTER_1 → starts_level a = false →
     (connections (store (step a w)) = connections (store w)
      ∧ nextSequenceIndex (store (step a w)) = nextSequenceIndex (store w))
     ∨ ∃ sourceId targetId,
         a = CompleteConnection targetId
         ∧ draggingNodeId (store w) = Some sourceId
         ∧ expected_pair (store w) sourceId targetId
         ∧ connections (store (step a w))
           = connections (store w) ++ [(sourceId, targetId)]
         ∧ nextSequenceIndex (store (step a w))
           = nextSequenceIndex (store w) + 1)
  ∧ (∀ w,
       reachable w → currentLevel (store w) = CHAPTER_1 →
       0 < length (sequenceOrder (store w))
       ∧ nextSequenceIndex (store w) ≤ length (sequenceOrder (store w)) - 1)
  ∧ (∀ targetId s,
       currentLevel s = CHAPTER_1 →
       (∀ sourceId, draggingNodeId s = Some sourceId →
                    ¬ expected_pair s sourceId targetId) →
       connections (completeConnection targetId s) = connections s
       ∧ nextSequenceIndex (completeConnection targetId s) = nextSequenceIndex s)
  ∧ (∀ rnd s,
       let s0 := startLevel rnd CHAPTER_1 s in
       sequenceOrder s0 = ["n1-0"; "n1-1"; "n1-2"; "n1-3"; "n1-4"; "n1-5"]
       ∧ nextSequenceIndex s0 = 0
       ∧ connections (completeConnection "n1-2" (startDragConnection "n1-0" s0)) = []
       ∧ nextSequenceIndex
           (completeConnection "n1-2" (startDragConnection "n1-0" s0)) = 0
       ∧ connections (completeConnection "n1-1" (startDragConnection "n1-0" s0))
         = [("n1-0", "n1-1")]
       ∧ nextSequenceIndex
           (completeConnection "n1-1" (startDragConnection "n1-0" s0)) = 1).
Proof.
  split; [|split; [|split]].
  - intros a w Hlvl Hstart.
    assert ((∀ targetId, a ≠ CompleteConnection targetId) →
            connections (store (step a w)) = connections (store w)
            ∧ nextSequenceIndex (store (step a w)) = nextSequenceIndex (store w))
      as Hframe.
    { intros Hc. by destruct (step_frame a w Hstart Hc) as (_ & _ & -> & _ & ->). }
    destruct a; try (left; by apply Hframe). simpl.
    destruct (completeConnection_accepting targetId (store w))
      as [->|(sourceId & Hsrc & _ & _ & Hexp & ->)]; [by left|].
    right. exists sourceId, targetId.
    destruct (acceptConnection_fields sourceId targetId (store w))
      as (_ & _ & -> & -> & _).
    unfold sourceIdOf in Hsrc. rewrite Hlvl in Hsrc. simpl in Hsrc.
    rewrite decide_True by done. repeat split; auto. lia.
  - intros w Hw Hlvl.
    destruct (sequence_inv_reachable w Hw Hlvl) as (_ & _ & _ & Hlt & _). lia.
  - intros targetId s Hlvl Hnot.
    assert (completeConnection targetId s = cancelDrag s) as ->; [|done].
    destruct (sourceIdOf s) as [sourceId|] eqn:Hsrc.
    + apply (completeConnection_out_of_order _ sourceId); [done..|].
      apply Hnot. unfold sourceIdOf in Hsrc. by rewrite Hlvl in Hsrc.
    + by apply completeConnection_no_source.
  - intros rnd s. cbv zeta. repeat split.
Qed.

(** The index of a reachable CHAPTER_1 state is within the sequence. *)
Lemma C4_sequence_index_witness :
  let w := run [StartLevel rnd_half CHAPTER_1;
                StartDragConnection "n1-0"; CompleteConnection "n1-1"]
             initialWorld in
  nextSequenceIndex (store w) = 1
  ∧ nextSequenceIndex (store w) ≤ length (sequenceOrder (store w)) - 1.
Proof.
  intros w. split; [reflexivity|].
  apply (proj1 (proj2 C4_sequence_index) w);
    [apply reachable_after|reflexivity].
Defined.

(** ** Connections and node ids *)

Lemma drag_inv_cancelDrag s : drag_inv s → drag_inv (cancelDrag s).
Proof.
  intros (Hc & Hd & Ht). split; [exact Hc|]. split; [|exact Ht].
  intros id Hid. discriminate Hid.
Qed.

Lemma drag_inv_accept sourceId targetId s :
  sourceIdOf s = Some sourceId → targetId ∈ node_ids s →
  drag_inv s → drag_inv (acceptConnection sourceId targetId s).
Proof.
  intros Hsrc Htgt (Hc & Hd & Ht).
  assert (sourceId ∈ node_ids s) as Hin.
  { unfold sourceIdOf in Hsrc. case_match; auto. }
  unfold drag_inv, connections_name_nodes, node_ids.
  rewrite acceptConnection_node_ids.
  destruct (acceptConnection_fields sourceId targetId s)
    as (_ & _ & -> & _ & _ & -> & ->).
  split; [|split; [intros id Hid; discriminate Hid|exact Ht]].
  intros c [Hold|Hnew%list_elem_of_singleton]%elem_of_app; [by apply Hc|].
  by subst c.
Qed.

Lemma drag_inv_reachable w :
  reachable_by addresses_nodes w → drag_inv (store w).
Proof.
  induction 1 as [|a w Hw IH Ha].
  { split; [|by split]. intros c Hc. by apply elem_of_nil in Hc. }
  assert (∀ rnd level, drag_inv (startLevel rnd level (store w))) as Hstart.
  { intros. split; [|by split]. intros c Hc. by apply elem_of_nil in Hc. }
  pose proof IH as (Hc & Hd & Ht).
  destruct a; cbn [step on_store play store addresses_nodes] in *;
    try (unfold resetGame);
    lazymatch goal with
    | |- drag_inv (startLevel _ _ _) => apply Hstart
    | _ => try exact IH
    end.
  - split; [exact Hc|split; [|exact Ht]]. by intros ? [= <-].
  - by apply drag_inv_cancelDrag.
  - destruct (completeConnection_cases targetId (store w))
      as [->|(sourceId & Hsrc & ->)];
      [by apply drag_inv_cancelDrag|by apply drag_inv_accept].
  - split; [exact Hc|split; [exact Hd|]]. intros id' Hid.
    change (id = Some id') in Hid. subst id. exact Ha.
  - unfold popBubble. by case_match.
  - unfold selectVehicle. by case_match.
  - destruct (tick_frame handle w) as (_ & Hn & Hcs & _ & _ & Hdr & Hte).
    unfold drag_inv, connections_name_nodes, node_ids.
    by rewrite Hn, Hcs, Hdr, Hte.
Qed.

(** C6, as the code has it: the engine records whatever ids it is given,
    so the connections name nodes of the level provided the callers do:
    at every state reached by actions whose [startDragConnection],
    [setTetheredNode] and [completeConnection] pass the id of a node of
    the node list of the moment, both ids of every connection are ids of
    nodes of the node list. *)
Theorem C6_connections_name_nodes w :
  reachable_by addresses_nodes w → connections_name_nodes (store w).
Proof. intros Hw. by destruct (drag_inv_reachable w Hw). Qed.

(** The tether level, with the first two nodes connected. *)
Lemma C6_connections_name_nodes_witness :
  let w := run [StartLevel rnd_half CONNECTION;
                SetTetheredNode (Some "n2-low-1");
                CompleteConnection "n2-low-2"] initialWorld in
  connections (store w) = [("n2-low-1", "n2-low-2")]
  ∧ reachable_by addresses_nodes w
  ∧ connections_name_nodes (store w).
Proof.
  intros w. split; [reflexivity|].
  assert (reachable_by addresses_nodes w) as Hw.
  { change w with
      (step (CompleteConnection "n2-low-2")
         (step (SetTetheredNode (Some "n2-low-1"))
            (step (StartLevel rnd_half CONNECTION) initialWorld))).
    repeat (apply reachable_step;
      [|vm_compute; by repeat constructor]).
    apply reachable_init. }
  split; [exact Hw|]. exact (C6_connections_name_nodes w Hw).
Defined.

(** C6 as stated fails: the tether level records a connection from an
    id that no node carries. *)
Lemma C6_counterexample :
  let w := run [StartLevel rnd_half CONNECTION;
                SetTetheredNode (Some "ghost");
                CompleteConnection "n2-mid"] initialWorld in
  reachable w
  ∧ connections (store w) = [("ghost", "n2-mid")]
  ∧ ("ghost" ∉ node_ids (store w))
  ∧ ¬ connections_name_nodes (store w).
Proof.
  intros w.
  assert ("ghost" ∉ node_ids (store w)) as Hghost.
  { vm_compute. intros H.
    repeat (apply elem_of_cons in H as [H|H]; [discriminate H|]).
    by apply elem_of_nil in H. }
  split; [apply reachable_after|]. split; [reflexivity|]. split; [done|].
  intros Hall. apply Hghost.
  apply (Hall ("ghost", "n2-mid")). vm_compute. left.
Qed.

(** ** Completion by coverage *)

Lemma elem_of_flat id cs : id ∈ flat cs ↔ touched id cs.
Proof.
  unfold flat, touched. rewrite list_elem_of_In, in_flat_map.
  split; intros (c & Hin & Hid); exists c.
  - apply list_elem_of_In in Hin. split; [done|].
    destruct Hid as [Hid|[Hid|[]]]; auto.
  - apply list_elem_of_In in Hin. split; [done|].
    destruct Hid as [Hid|Hid]; simpl; auto.
Qed.

Lemma elem_of_connectedSet id cs : id ∈ connectedSet cs ↔ touched id cs.
Proof. unfold connectedSet. by rewrite elem_of_list_to_set, elem_of_flat. Qed.

Lemma accepted_accepts targetId s :
  accepted targetId s →
  ∃ sourceId, completeConnection targetId s = acceptConnection sourceId targetId s.
Proof.
  intros [src Hacc].
  destruct (completeConnection_cases targetId s) as [Hrej|(sourceId & _ & Heq)];
    [|eauto].
  rewrite Hrej in Hacc. apply (f_equal length) in Hacc.
  rewrite length_app in Hacc. simpl in Hacc. lia.
Qed.

Lemma tether_ids_size : size (list_to_set tether_ids : gset string) = 5.
Proof. reflexivity. Qed.

(** C2, as the code has it: an accepted [completeConnection] sets
    [isLevelComplete] to true exactly when the set of the ids that occur
    in the connections, the new one included, has at least as many
    elements as there are nodes, and there is a node; an id is in that
    set exactly when it is an end of a connection.  For the five nodes
    of the tether level, and as long as both ends of every connection
    are ids of these nodes, the level is complete exactly when each of
    the five ids is an end of a connection; three connections that leave
    the two low nodes apart from the other three complete it. *)
Theorem C2_coverage :
  (∀ targetId s,
     accepted targetId s →
     let s' := completeConnection targetId s in
     isLevelComplete s' = true
     ↔ length (nodes s') ≤ size (connectedSet (connections s'))
       ∧ 0 < length (nodes s'))
  ∧ (∀ id cs, id ∈ connectedSet cs ↔ touched id cs)
  ∧ (∀ targetId s,
       node_ids s = tether_ids → accepted targetId s →
       let s' := completeConnection targetId s in
       connections_name_nodes s' →
       isLevelComplete s' = true
       ↔ ∀ id, id ∈ tether_ids → touched id (connections s'))
  ∧ (let s := store (run [StartLevel rnd_half CONNECTION;
                          SetTetheredNode (Some "n2-low-1");
                          CompleteConnection "n2-low-2";
                          SetTetheredNode (Some "n2-mid");
                          CompleteConnection "n2-high-1";
                          SetTetheredNode (Some "n2-high-1");
                          CompleteConnection "n2-high-2"] initialWorld) in
     isLevelComplete s = true
     ∧ connections s = [("n2-low-1", "n2-low-2"); ("n2-mid", "n2-high-1");
                        ("n2-high-1", "n2-high-2")]
     ∧ ∀ c, c ∈ connections s →
            c.1 ∈ ["n2-low-1"; "n2-low-2"] ↔ c.2 ∈ ["n2-low-1"; "n2-low-2"]).
Proof.
  split; [|split; [|split]].
  - intros targetId s [sourceId ->]%accepted_accepts. cbv zeta.
    rewrite acceptConnection_coverage. unfold coverage.
    rewrite andb_true_iff, Nat.leb_le, Nat.ltb_lt. done.
  - apply elem_of_connectedSet.
  - intros targetId s Hids [sourceId ->]%accepted_accepts. cbv zeta.
    set (s' := acceptConnection sourceId targetId s). intros Hnames.
    assert (node_ids s' = tether_ids) as Hids'.
    { unfold node_ids, s'. by rewrite acceptConnection_node_ids. }
    assert (length (nodes s') = 5) as Hlen.
    { rewrite <- (length_map node_id). fold (node_ids s'). by rewrite Hids'. }
    assert (connectedSet (connections s') ⊆ list_to_set tether_ids) as Hsub.
    { intros id [c [Hc Hid]]%elem_of_connectedSet.
      rewrite elem_of_list_to_set, <- Hids'.
      destruct (Hnames c Hc). by destruct Hid as [<-|<-]. }
    unfold s' at 1. rewrite acceptConnection_coverage. fold s'.
    unfold coverage. rewrite andb_true_iff, Nat.leb_le, Nat.ltb_lt, Hlen.
    split.
    + intros [Hsize _] id Hid. apply elem_of_connectedSet.
      apply (set_subseteq_size_equiv _ _ Hsub);
        [by rewrite tether_ids_size|by apply elem_of_list_to_set].
    + intros Hall. split; [|lia]. rewrite <- tether_ids_size.
      apply subseteq_size. intros id Hid%elem_of_list_to_set.
      apply elem_of_connectedSet. auto.
  - cbv zeta. split; [reflexivity|]. split; [reflexivity|].
    intros c Hc. vm_compute in Hc.
    repeat (apply elem_of_cons in Hc as [->|Hc]);
      [| | |by apply elem_of_nil in Hc]; simpl.
    + split; intros _; by repeat constructor.
    + split; intros H;
        repeat (apply elem_of_cons in H as [H|H]; [discriminate H|]);
        by apply elem_of_nil in H.
    + split; intros H;
        repeat (apply elem_of_cons in H as [H|H]; [discriminate H|]);
        by apply elem_of_nil in H.
Qed.

(** The first connection of the tether level. *)
Lemma C2_coverage_witness :
  let s := store (run [StartLevel rnd_half CONNECTION;
                       SetTetheredNode (Some "n2-low-1")] initialWorld) in
  let s' := completeConnection "n2-low-2" s in
  (node_ids s = tether_ids ∧ accepted "n2-low-2" s ∧ connections_name_nodes s')
  ∧ (isLevelComplete s' = true
     ↔ ∀ id, id ∈ tether_ids → touched id (connections s')).
Proof.
  intros s s'.
  assert (node_ids s = tether_ids) as Hids by reflexivity.
  assert (accepted "n2-low-2" s) as Hacc by (by exists "n2-low-1").
  assert (connections_name_nodes s') as Hnames.
  { intros c Hc. vm_compute in Hc.
    apply elem_of_cons in Hc as [->|Hc]; [|by apply elem_of_nil in Hc].
    vm_compute. split; by repeat constructor. }
  split; [done|].
  exact (proj1 (proj2 (proj2 C2_coverage)) "n2-low-2" s Hids Hacc Hnames).
Defined.

(** C2 as stated fails for the tether level: with two ids that no node
    carries among the ends, five distinct ids are reached, and the level
    completes, while the two high nodes are the end of no connection. *)
Lemma C2_counterexample :
  let s := store (run [StartLevel rnd_half CONNECTION;
                       SetTetheredNode (Some "n2-low-1");
                       CompleteConnection "n2-low-2";
                       SetTetheredNode (Some "n2-mid");
                       CompleteConnection "ghost-a";
                       SetTetheredNode (Some "ghost-a")] initialWorld) in
  let s' := completeConnection "ghost-b" s in
  node_ids s = tether_ids
  ∧ accepted "ghost-b" s
  ∧ isLevelComplete s = false
  ∧ isLevelComplete s' = true
  ∧ "n2-high-1" ∈ tether_ids
  ∧ ¬ touched "n2-high-1" (connections s').
Proof.
  intros s s'. split; [reflexivity|]. split; [by exists "ghost-a"|].
  split; [reflexivity|]. split; [reflexivity|].
  split; [vm_compute; by repeat constructor|].
  intros (c & Hc & Hid). vm_compute in Hc.
  repeat (apply elem_of_cons in Hc as [->|Hc]);
    [| | |by apply elem_of_nil in Hc];
    simpl in Hid; by destruct Hid.
Qed.

(** ** Order on the binary64 values *)

Lemma SFcompare_antisym x y :
  SFcompare y x = option_map CompOpp (SFcompare x y).
Proof.
  destruct x as [sx|sx| |sx mx ex], y as [sy|sy| |sy my ey]; simpl; try done;
    try (by destruct sx); try (by destruct sy); try (by destruct sx, sy).
  change (Pos.compare_cont Eq my mx) with (Pos.compare_cont (CompOpp Eq) my mx).
  rewrite <- (Pos.compare_cont_antisym mx my Eq), (Z.compare_antisym ex ey).
  destruct sx, sy; try done; f_equal;
    by destruct (ex ?= ey)%Z, (Pos.compare_cont Eq mx my).
Qed.

Lemma float_ltb_leb x y : (x <? y)%float = true → (x <=? y)%float = true.
Proof.
  intros H. rewrite FloatAxioms.ltb_spec in H. rewrite FloatAxioms.leb_spec.
  unfold SFltb, SFleb in *.
  by destruct (SFcompare _ _) as [[]|].
Qed.

Lemma float_not_nan x : PrimFloat.is_nan x = false → Prim2SF x ≠ S754_nan.
Proof.
  unfold PrimFloat.is_nan. intros H Hnan.
  rewrite FloatAxioms.eqb_spec, Hnan in H. done.
Qed.

Lemma float_not_ltb_leb x y :
  PrimFloat.is_nan x = false → PrimFloat.is_nan y = false →
  (y <? x)%float = false → (x <=? y)%float = true.
Proof.
  intros Hx%float_not_nan Hy%float_not_nan Hlt.
  rewrite FloatAxioms.ltb_spec in Hlt. rewrite FloatAxioms.leb_spec.
  unfold SFltb, SFleb in *. revert Hlt.
  rewrite (SFcompare_antisym (Prim2SF x) (Prim2SF y)).
  destruct (SFcompare (Prim2SF x) (Prim2SF y)) as [[]|] eqn:E; simpl; try done.
  destruct (Prim2SF x), (Prim2SF y); done.
Qed.

Lemma float_leb_refl x : PrimFloat.is_nan x = false → (x <=? x)%float = true.
Proof.
  unfold PrimFloat.is_nan. intros H.
  rewrite FloatAxioms.eqb_spec in H. rewrite FloatAxioms.leb_spec.
  unfold SFeqb, SFleb in *.
  by destruct (SFcompare _ _) as [[]|].
Qed.

Lemma float_leb_not_nan x y :
  (x <=? y)%float = true → PrimFloat.is_nan y = false.
Proof.
  unfold PrimFloat.is_nan. intros H.
  rewrite FloatAxioms.leb_spec in H. rewrite FloatAxioms.eqb_spec.
  unfold SFeqb, SFleb in *.
  destruct (Prim2SF x) as [[]|[]| |[] mx ex],
           (Prim2SF y) as [[]|[]| |[] my ey]; try done;
    simpl; by rewrite ?Z.compare_refl, ?Pos.compare_cont_refl.
Qed.

Lemma SFleb_trans x y z :
  SFleb x y = true → SFleb y z = true → SFleb x z = true.
Proof.
  unfold SFleb.
  destruct x as [sx|sx| |sx mx ex], y as [sy|sy| |sy my ey],
           z as [sz|sz| |sz mz ez]; simpl; try done;
    destruct sx; try done; destruct sy; try done; destruct sz; try done;
    rewrite ?Pos.compare_cont_spec; simpl;
    destruct (Z.compare_spec ex ey), (Z.compare_spec ey ez),
             (Z.compare_spec ex ez); try done; try lia;
    destruct (Pos.compare_spec mx my), (Pos.compare_spec my mz),
             (Pos.compare_spec mx mz); try done; lia.
Qed.

Lemma float_leb_trans x y z :
  (x <=? y)%float = true → (y <=? z)%float = true → (x <=? z)%float = true.
Proof. rewrite !FloatAxioms.leb_spec. apply SFleb_trans. Qed.

(** [Math.min(x, c)] is NaN or at most [c]. *)
Lemma Math_min_capped x c :
  PrimFloat.is_nan c = false → capped c (Math_min x c).
Proof.
  intros Hc. unfold capped, Math_min.
  destruct (PrimFloat.is_nan x) eqn:Hx; simpl; [by left|]. rewrite Hc.
  right.
  destruct (x <? c)%float eqn:Hlt; [by apply float_ltb_leb|].
  destruct (c <? x)%float eqn:Hgt; [by apply float_leb_refl|].
  destruct (PrimFloat.classify x);
    first [by apply float_leb_refl|by apply float_not_ltb_leb].
Qed.

(** [Math.min(y, c)] is not below a value that neither [y] nor [c] is
    below. *)
Lemma Math_min_grows x y c :
  (x <=? y)%float = true → (x <=? c)%float = true →
  (x <=? Math_min y c)%float = true.
Proof.
  intros Hy Hc. unfold Math_min.
  rewrite (float_leb_not_nan _ _ Hy), (float_leb_not_nan _ _ Hc). simpl.
  repeat case_match; done.
Qed.

(** ** The levels of the rain *)

Lemma rain_table : rain_table_ok = true.
Proof. vm_compute. reflexivity. Qed.

Lemma rain_facts n :
  n ≤ 501 →
  (0 <=? rainSeq n)%float = true
  ∧ (rainSeq n <? 20.04)%float = true
  ∧ (20 <=? rainSeq n)%float = (501 <=? n)
  ∧ (6.0 <? rainSeq n)%float = (150 <=? n)
  ∧ (rainSeq n <=? rainSeq (S n))%float = true.
Proof.
  intros Hn. pose proof rain_table as H. unfold rain_table_ok in H.
  rewrite forallb_forall in H. specialize (H n).
  unfold rain_check in H. rewrite !andb_true_iff in H.
  destruct H as ((((? & ?) & ?%Bool.eqb_prop) & ?%Bool.eqb_prop) & ?);
    [apply in_seq; lia|done].
Qed.

(** ** The measures: scale, health and rain *)

Lemma completeConnection_measures targetId s :
  playerScale (completeConnection targetId s) = playerScale s
  ∧ leafHealth (completeConnection targetId s) = leafHealth s
  ∧ rainLevel (completeConnection targetId s) = rainLevel s.
Proof.
  by destruct (completeConnection_cases targetId s) as [->|(src & _ & ->)].
Qed.

(** Who writes which measure: only [growPlayer] the scale, only
    [healLeaf] the health, only the rain tick the rain. *)
Lemma step_frame_measures a w :
  starts_level a = false →
  (playerScale (store (step a w)) = playerScale (store w)
   ∨ ∃ amount, a = GrowPlayer amount)
  ∧ (leafHealth (store (step a w)) = leafHealth (store w)
     ∨ ∃ amount, a = HealLeaf amount)
  ∧ (rainLevel (store (step a w)) = rainLevel (store w)
     ∨ ∃ handle, a = Tick handle).
Proof.
  intros Hs. destruct a; try done; simpl; try (by repeat split; left);
    try (by repeat split; eauto).
  - destruct (completeConnection_measures targetId (store w)) as (-> & -> & ->).
    by repeat split; left.
  - unfold popBubble. case_match; by repeat split; left.
  - unfold selectVehicle. case_match; by repeat split; left.
  - split; [|split; [|eauto]]; left; unfold tick; by repeat case_match.
Qed.

Lemma tick_rain handle w n :
  n ≤ 501 → rainLevel (store w) = rainSeq n →
  rainLevel (store (tick handle w)) = rainSeq n
  ∨ (n ≤ 500 ∧ rainLevel (store (tick handle w)) = rainSeq (S n)).
Proof.
  intros Hn Hr. unfold tick.
  destruct (timers w !! handle); [|by left]. rewrite Hr.
  destruct (rain_facts n Hn) as (_ & _ & -> & _).
  destruct (501 <=? n) eqn:E; [by left|].
  apply Nat.leb_gt in E. right. split; [lia|done].
Qed.

Lemma measure_inv_reachable w : reachable w → measure_inv (store w).
Proof.
  induction 1 as [|a w Hw IH _].
  { split; [by right|split; [by right|]].
    exists 0. split; [lia|reflexivity]. }
  assert (∀ rnd level, measure_inv (startLevel rnd level (store w))) as Hstart.
  { intros rnd level.
    split; [right; reflexivity|split; [right; reflexivity|]].
    exists 0. split; [lia|reflexivity]. }
  destruct (starts_level a) eqn:Hs.
  { destruct a; try discriminate Hs; cbn [step on_store store];
      try (unfold resetGame); apply Hstart. }
  destruct IH as (Hp & Hl & (n & Hn & Hr)).
  destruct (step_frame_measures a w Hs) as (Hp' & Hl' & Hr').
  split; [|split].
  - destruct Hp' as [->|[amount ->]]; [done|]. by apply Math_min_capped.
  - destruct Hl' as [->|[amount ->]]; [done|]. by apply Math_min_capped.
  - unfold rain_inv. destruct Hr' as [->|[handle ->]]; [by exists n|].
    destruct (tick_rain handle w n Hn Hr) as [H|[Hn' H]];
      [exists n|exists (S n)]; split; try done; lia.
Qed.

(** [Math.min(y, c)] is between a floor and [c] when [y] and [c] are
    not below the floor. *)
Lemma Math_min_within x y c :
  (x <=? y)%float = true → (x <=? c)%float = true →
  (x <=? Math_min y c)%float = true ∧ (Math_min y c <=? c)%float = true.
Proof.
  intros Hy Hc. pose proof (Math_min_grows x y c Hy Hc) as Hfloor.
  split; [done|].
  destruct (Math_min_capped y c (float_leb_not_nan _ _ Hc)) as [Hnan|Hle];
    [|done].
  by rewrite (float_leb_not_nan _ _ Hfloor) in Hnan.
Qed.

(** A step with an amount that does not lower keeps the ranges, and
    lowers neither the scale nor the health. *)
Lemma step_ranges a w :
  ranges_inv (store w) → non_lowering a (store w) → starts_level a = false →
  ranges_inv (store (step a w))
  ∧ (playerScale (store w) <=? playerScale (store (step a w)))%float = true
  ∧ (leafHealth (store w) <=? leafHealth (store (step a w)))%float = true.
Proof.
  intros (Hp1 & Hp10 & Hl0 & Hl100) Hnl Hs.
  destruct (step_frame_measures a w Hs) as (Hp & Hl & _).
  assert ((1 <=? playerScale (store (step a w)))%float = true
          ∧ (playerScale (store (step a w)) <=? 10)%float = true
          ∧ (playerScale (store w) <=? playerScale (store (step a w)))%float
            = true) as (? & ? & ?).
  { destruct Hp as [->|[amount ->]].
    - split; [done|]. split; [done|].
      by apply float_leb_refl, (float_leb_not_nan 1).
    - cbn [step on_store store non_lowering] in *.
      change (playerScale (growPlayer amount (store w)))
        with (Math_min (playerScale (store w) + amount) 10).
      destruct (Math_min_within 1 (playerScale (store w) + amount) 10)
        as [? ?]; [by apply (float_leb_trans _ (playerScale (store w)))|done|].
      split; [done|]. split; [done|]. by apply Math_min_grows. }
  assert ((0 <=? leafHealth (store (step a w)))%float = true
          ∧ (leafHealth (store (step a w)) <=? 100)%float = true
          ∧ (leafHealth (store w) <=? leafHealth (store (step a w)))%float
            = true) as (? & ? & ?).
  { destruct Hl as [->|[amount ->]].
    - split; [done|]. split; [done|].
      by apply float_leb_refl, (float_leb_not_nan 0).
    - cbn [step on_store store non_lowering] in *.
      change (leafHealth (healLeaf amount (store w)))
        with (Math_min (leafHealth (store w) + amount) 100).
      destruct (Math_min_within 0 (leafHealth (store w) + amount) 100)
        as [? ?]; [by apply (float_leb_trans _ (leafHealth (store w)))|done|].
      split; [done|]. split; [done|]. by apply Math_min_grows. }
  split; [|done]. unfold ranges_inv. done.
Qed.

Lemma ranges_inv_reachable w :
  reachable_by non_lowering w → ranges_inv (store w).
Proof.
  induction 1 as [|a w Hw IH Hnl].
  { split; [reflexivity|split; [reflexivity|split; reflexivity]]. }
  assert (∀ rnd level, ranges_inv (startLevel rnd level (store w))) as Hstart.
  { intros rnd level.
    split; [reflexivity|split; [reflexivity|split; reflexivity]]. }
  destruct (starts_level a) eqn:Hs.
  { destruct a; try discriminate Hs; cbn [step on_store store];
      try (unfold resetGame); apply Hstart. }
  by destruct (step_ranges a w IH Hnl Hs) as [? _].
Qed.

(** A run with amounts that do not lower is a run. *)
Lemma reachable_by_reachable P w : reachable_by P w → reachable w.
Proof. induction 1; by constructor. Qed.

(** ** The rain *)

Lemma triggerRain_fields w :
  let w' := triggerRain w in
  isRaining (store w') = true
  ∧ isInteractiveHover (store w') = false
  ∧ rainLevel (store w') = rainLevel (store w)
  ∧ timers w' !! nextHandle w = Some false
  ∧ nextHandle w' = S (nextHandle w)
  ∧ sounds w' = sounds w ++ [FloodSound].
Proof. cbv zeta. repeat split. simpl. apply lookup_insert_eq. Qed.

(** A tick of a live interval while the rain is below 20. *)
Lemma tick_rising handle latch w :
  timers w !! handle = Some latch →
  (20 <=? rainLevel (store w))%float = false →
  let w' := tick handle w in
  let extinguish := negb latch && (6.0 <? rainLevel (store w) + 0.04)%float in
  rainLevel (store w') = (rainLevel (store w) + 0.04)%float
  ∧ isLevelComplete (store w') = isLevelComplete (store w)
  ∧ narrativeIndex (store w') = narrativeIndex (store w)
  ∧ isRaining (store w') = isRaining (store w)
  ∧ timers w' !! handle = Some (latch || extinguish)
  ∧ sounds w' = sounds w ++ (if extinguish then [SunExtinguish] else []).
Proof.
  intros Hlive Hlow. cbv zeta. unfold tick. rewrite Hlive, Hlow. simpl.
  repeat split. apply lookup_insert_eq.
Qed.

(** A tick of a live interval once the rain has reached 20. *)
Lemma tick_stopping handle latch w :
  timers w !! handle = Some latch →
  (20 <=? rainLevel (store w))%float = true →
  let w' := tick handle w in
  rainLevel (store w') = rainLevel (store w)
  ∧ isLevelComplete (store w') = true
  ∧ narrativeIndex (store w') = 1
  ∧ isRaining (store w') = isRaining (store w)
  ∧ timers w' !! handle = None
  ∧ sounds w' = sounds w.
Proof.
  intros Hlive Hhigh. cbv zeta. unfold tick. rewrite Hlive, Hhigh. simpl.
  repeat split. apply lookup_delete_eq.
Qed.

Lemma tick_dead handle w : timers w !! handle = None → tick handle w = w.
Proof. intros H. unfold tick. by rewrite H. Qed.

(** No action touches the interval of another call, and no handle is
    issued twice. *)
Lemma step_timer_other a w h :
  (∀ h', a = Tick h' → h' ≠ h) → h < nextHandle w →
  timers (step a w) !! h = timers w !! h ∧ h < nextHandle (step a w).
Proof.
  intros Hother Hlt. destruct a; try done; simpl.
  - split; [|lia]. apply lookup_insert_ne. lia.
  - specialize (Hother handle eq_refl). unfold tick.
    repeat case_match; simpl; try done;
      by rewrite ?lookup_insert_ne, ?lookup_delete_ne.
Qed.

Lemma step_timer_dead a w h :
  timers w !! h = None → h < nextHandle w →
  timers (step a w) !! h = None ∧ h < nextHandle (step a w).
Proof.
  intros Hdead Hlt.
  assert ((∀ h', a = Tick h' → h' ≠ h) ∨ a = Tick h) as [Hother| ->].
  { destruct a; try (by left). destruct (decide (handle = h)) as [->|];
      [by right|left; by intros ? [= <-]]. }
  - rewrite <- Hdead. by apply step_timer_other.
  - simpl. by rewrite tick_dead.
Qed.

Lemma run_timer_dead acts w h :
  timers w !! h = None → h < nextHandle w →
  timers (run acts w) !! h = None.
Proof.
  revert w. induction acts as [|a acts IH]; intros w Hdead Hlt; [done|].
  simpl. destruct (step_timer_dead a w h Hdead Hlt). by apply IH.
Qed.

(** The latch: an interval whose latch is set plays no "extinguish",
    and one whose latch is not set plays at most one. *)
Lemma extinguishes_latched acts w h :
  h < nextHandle w →
  match timers w !! h with
  | Some false => extinguishes h acts w ≤ 1
  | _ => extinguishes h acts w = 0
  end.
Proof.
  revert w. induction acts as [|a acts IH]; intros w Hlt.
  { simpl. repeat case_match; lia. }
  assert ((∀ h', a = Tick h' → h' ≠ h) ∨ a = Tick h) as [Hother| ->].
  { destruct a; try (by left). destruct (decide (handle = h)) as [->|];
      [by right|left; by intros ? [= <-]]. }
  - destruct (step_timer_other a w h Hother Hlt) as [Hsame Hlt'].
    specialize (IH (step a w) Hlt'). rewrite Hsame in IH.
    assert (extinguishes h (a :: acts) w = extinguishes h acts (step a w)) as ->;
      [|done].
    simpl. destruct a; try done. rewrite decide_False; [done|].
    by apply Hother.
  - assert (h < nextHandle (step (Tick h) w)) as Hlt'.
    { simpl. unfold tick. by repeat case_match. }
    specialize (IH (step (Tick h) w) Hlt').
    simpl extinguishes. rewrite decide_True by done. simpl step in *.
    destruct (timers w !! h) as [latch|] eqn:Hlive;
      [|rewrite tick_dead in * by done; rewrite Hlive in IH; lia].
    destruct (20 <=? rainLevel (store w))%float eqn:Hhigh.
    + destruct (tick_stopping h latch w Hlive Hhigh) as (_ & _ & _ & _ & Ht & Hs).
      rewrite Ht in IH. rewrite Hs, IH. destruct latch; lia.
    + destruct (tick_rising h latch w Hlive Hhigh) as (_ & _ & _ & _ & Ht & Hs).
      rewrite Ht in IH. rewrite Hs, length_app.
      destruct latch; simpl in *; [lia|].
      destruct (6.0 <? _)%float; simpl in *; lia.
Qed.

Lemma step_rain_stopped a w :
  starts_level a = false →
  (20 <=? rainLevel (store w))%float = true →
  rainLevel (store (step a w)) = rainLevel (store w).
Proof.
  intros Hs Hhigh.
  destruct (step_frame_measures a w Hs) as (_ & _ & [|[handle ->]]); [done|].
  simpl. unfold tick. rewrite Hhigh. by repeat case_match.
Qed.

Lemma timers_fresh_reachable w : reachable w → timers_fresh w.
Proof.
  induction 1 as [|a w Hw IH _]; [by intros h [? ?]|].
  unfold timers_fresh in *.
  destruct a; cbn [step on_store play timers nextHandle]; try exact IH.
  - intros h [latch Hh]. cbn [triggerRain timers nextHandle] in *.
    destruct (decide (h = nextHandle w)) as [->|Hne]; [lia|].
    rewrite lookup_insert_ne in Hh by done.
    assert (h < nextHandle w) by (apply IH; eauto). lia.
  - intros h [latch Hh]. unfold tick in *.
    destruct (timers w !! handle) as [l|] eqn:Hlive; [|eauto].
    assert (is_Some (timers w !! h)) as Hsome.
    { destruct (decide (h = handle)) as [->|Hne]; [eauto|].
      destruct (20 <=? _)%float; cbn [timers] in Hh;
        rewrite ?lookup_insert_ne, ?lookup_delete_ne in Hh by done; eauto. }
    destruct (20 <=? _)%float; cbn [nextHandle]; auto.
Qed.

Lemma rain_run_0 rnd w :
  rain_run rnd w 0 = triggerRain (on_store (startLevel rnd SUN) w).
Proof. reflexivity. Qed.

Lemma rain_run_S rnd w n :
  rain_run rnd w (S n) = tick (nextHandle w) (rain_run rnd w n).
Proof.
  unfold rain_run, run. cbn [repeat]. rewrite repeat_cons.
  rewrite !app_comm_cons, foldl_snoc. reflexivity.
Qed.

(** The whole course of the rain of a SUN level whose interval is the
    only one that ticks. *)
Lemma rain_run_spec rnd w n :
  let w' := rain_run rnd w n in
  rainLevel (store w') = rainSeq (Nat.min n 501)
  ∧ isLevelComplete (store w') = (502 <=? n)
  ∧ narrativeIndex (store w') = (if 502 <=? n then 1 else 0)
  ∧ isRaining (store w') = true
  ∧ timers w' !! nextHandle w = (if 502 <=? n then None else Some (150 <=? n))
  ∧ sounds w'
    = sounds w ++ FloodSound :: (if 150 <=? n then [SunExtinguish] else []).
Proof.
  cbv zeta. induction n as [|n IH].
  { rewrite rain_run_0. repeat split. cbn [triggerRain timers].
    apply lookup_insert_eq. }
  destruct IH as (Hr & Hc & Hn & Hi & Ht & Hs). rewrite rain_run_S.
  set (w' := rain_run rnd w n) in *. set (h := nextHandle w) in *.
  destruct (decide (n ≤ 500)) as [Hlow|Hhigh].
  - rewrite Nat.min_l in Hr by lia. rewrite (Nat.min_l (S n)) by lia.
    assert ((502 <=? n) = false) as E1 by (apply Nat.leb_gt; lia).
    assert ((502 <=? S n) = false) as E2 by (apply Nat.leb_gt; lia).
    rewrite E1 in *. rewrite E2.
    destruct (rain_facts n) as (_ & _ & H20 & _); [lia|].
    destruct (rain_facts (S n)) as (_ & _ & _ & H6 & _); [lia|].
    assert ((501 <=? n) = false) as E3 by (apply Nat.leb_gt; lia).
    rewrite E3, <- Hr in H20. cbn [rainSeq] in H6. rewrite <- Hr in H6.
    destruct (tick_rising h _ w' Ht H20) as (-> & -> & -> & -> & -> & ->).
    rewrite H6, Hs, Hr, <- app_assoc.
    repeat split; try done.
    + f_equal. destruct (150 <=? n) eqn:Ea, (150 <=? S n) eqn:Eb; try done.
      apply Nat.leb_le in Ea. apply Nat.leb_gt in Eb. lia.
    + f_equal. destruct (150 <=? n) eqn:Ea, (150 <=? S n) eqn:Eb; try done.
      apply Nat.leb_le in Ea. apply Nat.leb_gt in Eb. lia.
  - destruct (decide (n = 501)) as [->|Hover].
    + cbn [Nat.min Nat.leb] in *.
      assert ((20 <=? rainLevel (store w'))%float = true) as H20.
      { rewrite Hr. by destruct (rain_facts 501) as (_ & _ & -> & _). }
      destruct (tick_stopping h _ w' Ht H20) as (-> & -> & -> & -> & -> & ->).
      by rewrite Hr, Hs.
    + assert ((502 <=? n) = true) as E1 by (apply Nat.leb_le; lia).
      assert ((502 <=? S n) = true) as E2 by (apply Nat.leb_le; lia).
      assert ((150 <=? n) = true) as E3 by (apply Nat.leb_le; lia).
      assert ((150 <=? S n) = true) as E4 by (apply Nat.leb_le; lia).
      rewrite E1 in *. rewrite E3 in *. rewrite E2, E4.
      rewrite tick_dead by done.
      rewrite Nat.min_r in Hr by lia. rewrite Nat.min_r by lia. done.
Qed.

(** C5, as the code has it: as long as no [growPlayer] or [healLeaf]
    call is given an amount that lowers, [playerScale] stays within 1
    and 10 and [leafHealth] within 0 and 100, and no action that does
    not start a level lowers either; [growPlayer] stores
    [min(playerScale + amount, 10)] and [healLeaf] stores
    [min(leafHealth + amount, 100)], so both are held at their ceilings,
    and at every reachable state the scale is NaN or at most 10 and the
    health NaN or at most 100; no other action that does not start a
    level writes the scale or the health.  [rainLevel] is at least 0 and
    below 20.04 at every reachable state and no action that does not
    start a level lowers it, but it is not held at 20: tick 501 of the
    rain of a SUN level lifts it above 20. *)
Theorem C5_measures :
  (∀ w, reachable_by non_lowering w →
     (1 <=? playerScale (store w))%float = true
     ∧ (playerScale (store w) <=? 10)%float = true
     ∧ (0 <=? leafHealth (store w))%float = true
     ∧ (leafHealth (store w) <=? 100)%float = true)
  ∧ (∀ a w, reachable_by non_lowering w → non_lowering a (store w) →
       starts_level a = false →
       (playerScale (store w) <=? playerScale (store (step a w)))%float = true
       ∧ (leafHealth (store w) <=? leafHealth (store (step a w)))%float = true)
  ∧ (∀ w, reachable w →
       capped 10 (playerScale (store w)) ∧ capped 100 (leafHealth (store w))
       ∧ (0 <=? rainLevel (store w))%float = true
       ∧ (rainLevel (store w) <? 20.04)%float = true)
  ∧ (∀ a w, reachable w → starts_level a = false →
       (rainLevel (store w) <=? rainLevel (store (step a w)))%float = true)
  ∧ (∀ rnd w, (20 <? rainLevel (store (rain_run rnd w 501)))%float = true)
  ∧ (∀ amount s,
       playerScale (growPlayer amount s)
         = Math_min (playerScale s + amount) 10
       ∧ ((playerScale s <=? playerScale s + amount)%float = true →
          (playerScale s <=? 10)%float = true →
          (playerScale s <=? playerScale (growPlayer amount s))%float = true))
  ∧ (∀ amount s,
       leafHealth (healLeaf amount s)
         = Math_min (leafHealth s + amount) 100
       ∧ ((leafHealth s <=? leafHealth s + amount)%float = true →
          (leafHealth s <=? 100)%float = true →
          (leafHealth s <=? leafHealth (healLeaf amount s))%float = true))
  ∧ (∀ a w, starts_level a = false →
       ((∀ amount, a ≠ GrowPlayer amount) →
        playerScale (store (step a w)) = playerScale (store w))
       ∧ ((∀ amount, a ≠ HealLeaf amount) →
          leafHealth (store (step a w)) = leafHealth (store w))).
Proof.
  split; [|split; [|split; [|split; [|split; [|split; [|split]]]]]].
  - intros w Hw. exact (ranges_inv_reachable w Hw).
  - intros a w Hw%ranges_inv_reachable Hnl Hs.
    by destruct (step_ranges a w Hw Hnl Hs) as [_ ?].
  - intros w (Hp & Hl & (n & Hn & ->))%measure_inv_reachable.
    destruct (rain_facts n Hn) as (? & ? & _). done.
  - intros a w (_ & _ & (n & Hn & Hr))%measure_inv_reachable Hs.
    destruct (rain_facts n Hn) as (Hpos & _ & _ & _ & Hup).
    destruct (step_frame_measures a w Hs) as (_ & _ & [->|[handle ->]]).
    + rewrite Hr. by apply float_leb_refl, (float_leb_not_nan 0).
    + cbn [step].
      destruct (tick_rain handle w n Hn Hr) as [->|[_ ->]]; rewrite Hr;
        [by apply float_leb_refl, (float_leb_not_nan 0)|done].
  - intros rnd w. destruct (rain_run_spec rnd w 501) as (-> & _).
    vm_compute. reflexivity.
  - intros amount s. split; [done|]. apply Math_min_grows.
  - intros amount s. split; [done|]. apply Math_min_grows.
  - intros a w Hs.
    destruct (step_frame_measures a w Hs) as (Hp & Hl & _).
    split; intros Hne;
      [destruct Hp as [|[x ->]]|destruct Hl as [|[x ->]]];
      try done; by destruct (Hne x).
Qed.

(** In the CHEWING level the scale after [growPlayer(9)], which does
    not lower, is held at 10, within its range. *)
Lemma C5_measures_witness :
  let w := run [StartLevel rnd_half CHEWING; GrowPlayer 9%float] initialWorld in
  reachable_by non_lowering w
  ∧ playerScale (store w) = 10%float
  ∧ (1 <=? playerScale (store w))%float = true
  ∧ (playerScale (store w) <=? 10)%float = true.
Proof.
  intros w.
  assert (reachable_by non_lowering w) as Hw.
  { change w with (step (GrowPlayer 9%float)
                     (step (StartLevel rnd_half CHEWING) initialWorld)).
    apply reachable_step; [apply reachable_step; [apply reachable_init|]|].
    - exact I.
    - vm_compute. reflexivity. }
  split; [exact Hw|]. split; [reflexivity|].
  destruct (proj1 C5_measures w Hw) as (H1 & H10 & _).
  exact (conj H1 H10).
Defined.

(** C5 as stated fails: [growPlayer(-5)] takes the scale from 1 to -4,
    below 1; and the rain, which is 19.999999999999751 after 500 ticks,
    is raised once more, to 20.03999999999975, above 20. *)
Lemma C5_counterexample :
  let w := run [StartLevel rnd_half CHEWING; GrowPlayer (-5)%float]
             initialWorld in
  let r := rain_run rnd_half initialWorld in
  (playerScale (store w) = (-4)%float
   ∧ (1 <=? playerScale (store w))%float = false)
  ∧ (rainLevel (store (r 500)) = 19.999999999999751%float
     ∧ rainLevel (store (r 501)) = 20.03999999999975%float
     ∧ (20 <? rainLevel (store (r 501%nat)))%float = true).
Proof. vm_compute. auto. Qed.

(** C9, as the code has it: [triggerRain] sets [isRaining], plays the
    flood sound and starts an interval with its latch unset; a tick of
    a live interval adds 0.04 (in binary64) to [rainLevel] while it is
    below 20, and once it is 20 or more removes the interval, sets
    [isLevelComplete] and sets [narrativeIndex] to 1; a removed interval
    never ticks again, and no action that does not start a level
    changes a [rainLevel] of 20 or more.  The "extinguish" sound is
    played by exactly the ticks that lift the level above 6.0 while the
    latch of their interval is unset, and such a tick sets the latch,
    which no tick unsets; no other tick and no other action plays it,
    so it is played at most once for each [triggerRain].  For
    the rain of a fresh SUN level whose interval alone ticks it is
    played exactly once, by tick 150; the level is [rainSeq n] after
    [n] ticks up to 501, and tick 502 stops the interval and completes
    the level. *)
Theorem C9_rain :
  (∀ w,
     isRaining (store (triggerRain w)) = true
     ∧ timers (triggerRain w) !! nextHandle w = Some false
     ∧ sounds (triggerRain w) = sounds w ++ [FloodSound])
  ∧ (∀ handle latch w,
       timers w !! handle = Some latch →
       (20 <=? rainLevel (store w))%float = false →
       let extinguish :=
         negb latch && (6.0 <? rainLevel (store w) + 0.04)%float in
       rainLevel (store (tick handle w)) = (rainLevel (store w) + 0.04)%float
       ∧ isLevelComplete (store (tick handle w)) = isLevelComplete (store w)
       ∧ narrativeIndex (store (tick handle w)) = narrativeIndex (store w)
       ∧ timers (tick handle w) !! handle = Some (latch || extinguish)
       ∧ sounds (tick handle w)
         = sounds w ++ (if extinguish then [SunExtinguish] else []))
  ∧ (∀ handle latch w,
       timers w !! handle = Some latch →
       (20 <=? rainLevel (store w))%float = true →
       rainLevel (store (tick handle w)) = rainLevel (store w)
       ∧ isLevelComplete (store (tick handle w)) = true
       ∧ narrativeIndex (store (tick handle w)) = 1
       ∧ timers (tick handle w) !! handle = None
       ∧ sounds (tick handle w) = sounds w)
  ∧ (∀ a w,
       (∀ handle, a ≠ Tick handle) →
       ∃ played, sounds (step a w) = sounds w ++ played
                 ∧ SunExtinguish ∉ played)
  ∧ (∀ handle acts w,
       reachable w → timers w !! handle = None → handle < nextHandle w →
       timers (run acts w) !! handle = None
       ∧ tick handle (run acts w) = run acts w)
  ∧ (∀ a w,
       starts_level a = false →
       (20 <=? rainLevel (store w))%float = true →
       rainLevel (store (step a w)) = rainLevel (store w))
  ∧ (∀ acts w, extinguishes (nextHandle w) acts (triggerRain w) ≤ 1)
  ∧ (∀ rnd w n,
       rainLevel (store (rain_run rnd w n)) = rainSeq (Nat.min n 501)
       ∧ isLevelComplete (store (rain_run rnd w n)) = (502 <=? n)
       ∧ narrativeIndex (store (rain_run rnd w n)) = (if 502 <=? n then 1 else 0)
       ∧ timers (rain_run rnd w n) !! nextHandle w
         = (if 502 <=? n then None else Some (150 <=? n))
       ∧ sounds (rain_run rnd w n)
         = sounds w ++ FloodSound :: (if 150 <=? n then [SunExtinguish] else [])).
Proof.
  split; [|split; [|split; [|split; [|split; [|split; [|split]]]]]].
  - intros w. by destruct (triggerRain_fields w) as (? & _ & _ & ? & _ & ?).
  - intros handle latch w Hlive Hlow.
    destruct (tick_rising handle latch w Hlive Hlow)
      as (H1 & H2 & H3 & _ & H4 & H5).
    cbv zeta in *. exact (conj H1 (conj H2 (conj H3 (conj H4 H5)))).
  - intros handle latch w Hlive Hhigh.
    destruct (tick_stopping handle latch w Hlive Hhigh)
      as (H1 & H2 & H3 & _ & H4 & H5).
    exact (conj H1 (conj H2 (conj H3 (conj H4 H5)))).
  - intros a w Hother.
    destruct a; cbn [step on_store play sounds];
      try (exists []; split; [by rewrite app_nil_r|apply not_elem_of_nil]).
    + exists [BubblePop]. split; [done|].
      intros H. apply list_elem_of_singleton in H. discriminate H.
    + exists [FloodSound]. split; [done|].
      intros H. apply list_elem_of_singleton in H. discriminate H.
    + by destruct (Hother handle).
  - intros handle acts w _ Hdead Hlt.
    pose proof (run_timer_dead acts w handle Hdead Hlt) as Hrun.
    split; [done|by apply tick_dead].
  - apply step_rain_stopped.
  - intros acts w.
    pose proof (extinguishes_latched acts (triggerRain w) (nextHandle w)) as H.
    destruct (triggerRain_fields w) as (_ & _ & _ & Ht & Hn & _).
    rewrite Ht in H. apply H. rewrite Hn. lia.
  - intros rnd w n.
    by destruct (rain_run_spec rnd w n) as (? & ? & ? & _ & ? & ?).
Qed.

(** Tick 150 of the rain of a fresh SUN level lifts the level, which is
    below 20, by 0.04 to above 6, plays "extinguish" and sets the
    latch. *)
Lemma C9_rain_witness :
  let w := rain_run rnd_half initialWorld 149 in
  (timers w !! 0 = Some false
   ∧ (20 <=? rainLevel (store w))%float = false)
  ∧ (rainLevel (store (tick 0 w)) = (rainLevel (store w) + 0.04)%float
     ∧ timers (tick 0 w) !! 0 = Some true
     ∧ sounds (tick 0 w) = sounds w ++ [SunExtinguish]).
Proof.
  intros w.
  assert (timers w !! 0 = Some false) as Hlive by (vm_compute; reflexivity).
  assert ((20 <=? rainLevel (store w))%float = false) as Hlow
    by (vm_compute; reflexivity).
  assert ((6.0 <? rainLevel (store w) + 0.04)%float = true) as Hsix
    by (vm_compute; reflexivity).
  split; [exact (conj Hlive Hlow)|].
  destruct (proj1 (proj2 C9_rain) 0 false w Hlive Hlow)
    as (H1 & _ & _ & H2 & H3).
  rewrite Hsix in H2, H3. exact (conj H1 (conj H2 H3)).
Defined.

(** C9 as stated fails for a rain that is triggered again: after the
    level has completed, a second [triggerRain] plays the flood sound
    and its interval stops at its first tick, with no "extinguish"; and
    a second [triggerRain] at tick 200 of the first, with the level at
    8, has its "extinguish" played by its first tick, well above 6. *)
Lemma C9_counterexample :
  let w1 := rain_run rnd_half initialWorld 502 in
  let w2 := run [TriggerRain; Tick 1; Tick 1] w1 in
  let w3 := rain_run rnd_half initialWorld 200 in
  let w4 := run [TriggerRain; Tick 1] w3 in
  (timers w1 !! 0 = None ∧ sounds w1 = [FloodSound; SunExtinguish]
   ∧ nextHandle w1 = 1)
  ∧ (timers w2 !! 1 = None
     ∧ sounds w2 = [FloodSound; SunExtinguish; FloodSound]
     ∧ extinguishes 1 [Tick 1; Tick 1] (triggerRain w1) = 0)
  ∧ ((6.0 <? rainLevel (store w3))%float = true
     ∧ sounds w3 = [FloodSound; SunExtinguish]
     ∧ sounds w4 = [FloodSound; SunExtinguish; FloodSound; SunExtinguish]).
Proof. vm_compute. auto 10. Qed.

(** * Further properties of the store *)

(** ** Popping bubbles *)

Lemma string_length_append (a b : string) :
  String.length (a +:+ b) = String.length a + String.length b.
Proof. induction a as [|c a IH]; simpl; [done|by rewrite IH]. Qed.

(** The id of a fragment is longer than the id of its bubble. *)
Lemma fragment_id_fresh rnd id bubble i :
  feat_id (fragment rnd id bubble i) ≠ id.
Proof.
  intros H. apply (f_equal String.length) in H. cbn [fragment feat_id] in H.
  rewrite !string_length_append in H. simpl in H. lia.
Qed.

Lemma find_feature_iff id env :
  find (fun f => String.eqb (feat_id f) id) env = None
  ↔ ∀ f, f ∈ env → feat_id f ≠ id.
Proof.
  split.
  - intros Hnone f Hin%list_elem_of_In Heq.
    apply (find_none _ _ Hnone) in Hin. apply String.eqb_neq in Hin. done.
  - intros Habs. destruct (find _ _) as [f|] eqn:Hfind; [|done].
    apply find_some in Hfind as [Hin%list_elem_of_In Heq%String.eqb_eq].
    by destruct (Habs f Hin).
Qed.

(** After [popBubble(id)] no feature carries the id, whether one did
    before or not. *)
Lemma popBubble_removes rnd id s : feature_absent id (popBubble rnd id s).
Proof.
  unfold popBubble.
  destruct (find _ _) as [bubble|] eqn:Hfind;
    [|exact (proj1 (find_feature_iff _ _) Hfind)].
  cbn [envFeatures set_envFeatures set_bubblesPopped set_isInteractiveHover
       feature_absent].
  intros f [Hold|Hnew]%elem_of_app.
  - by apply list_elem_of_filter in Hold as [? _].
  - apply list_elem_of_fmap in Hnew as (i & -> & _).
    apply fragment_id_fresh.
Qed.

(** X1: [popBubble(id)] on an id that some feature carries: every feature
    with that id is removed, whatever its type, and three FRAGMENT
    features named [frag-id-0], [frag-id-1], [frag-id-2] are appended
    at height 0.2; [bubblesPopped] grows by 1 and the interactive hover
    is cleared; no feature of the new environment carries the id, and
    the completion flag, the narrative index and the fragment count are
    not written. *)
Theorem popBubble_present rnd id s :
  ¬ feature_absent id s →
  let s' := popBubble rnd id s in
  (∃ frags,
     envFeatures s' = filter (fun f => feat_id f ≠ id) (envFeatures s) ++ frags
     ∧ map feat_id frags
       = ["frag-" +:+ id +:+ "-0"; "frag-" +:+ id +:+ "-1"; "frag-" +:+ id +:+ "-2"]
     ∧ Forall (fun f => feat_type f = Feature.FRAGMENT
                        ∧ f.(feat_position).1.2 = 0.2%float) frags)
  ∧ feature_absent id s'
  ∧ bubblesPopped s' = bubblesPopped s + 1
  ∧ isInteractiveHover s' = false
  ∧ isLevelComplete s' = isLevelComplete s
  ∧ narrativeIndex s' = narrativeIndex s
  ∧ fragmentsCollected s' = fragmentsCollected s.
Proof.
  intros Hpresent. cbv zeta.
  split; [|split; [apply popBubble_removes|]]; unfold popBubble;
    (destruct (find _ _) as [bubble|] eqn:Hfind;
      [|destruct Hpresent; exact (proj1 (find_feature_iff _ _) Hfind)]).
  - eexists. split; [reflexivity|]. split; [reflexivity|].
    repeat constructor.
  - done.
Qed.

(** A bubble of the NAME level is popped. *)
Lemma popBubble_present_witness :
  let s := startLevel rnd_half NAME initialState in
  ¬ feature_absent "bubble-3" s
  ∧ length (envFeatures s) = 15
  ∧ length (envFeatures (popBubble rnd_half "bubble-3" s)) = 17
  ∧ feature_absent "bubble-3" (popBubble rnd_half "bubble-3" s).
Proof.
  intros s.
  assert (¬ feature_absent "bubble-3" s) as Hpresent.
  { intros Habs.
    apply (Habs (feature "bubble-3" Feature.BUBBLE
                   (0%float, 2%float, 0%float)
                   (0.8%float, 0.8%float, 0.8%float) None "#e6e6fa"
                   (Some (Feature.Text 20018)))); [|reflexivity].
    vm_compute. do 3 apply list_elem_of_further. apply list_elem_of_here. }
  split; [exact Hpresent|]. split; [reflexivity|]. split; [reflexivity|].
  exact (proj1 (proj2 (popBubble_present rnd_half "bubble-3" s Hpresent))).
Defined.

(** X2: Popping is idempotent: a second [popBubble] with the same id writes
    nothing, whatever the id and the draws. *)
Theorem popBubble_twice rnd rnd' id s :
  popBubble rnd' id (popBubble rnd id s) = popBubble rnd id s.
Proof. apply popBubble_absent, popBubble_removes. Qed.

(** ** More on the connection engine *)

Lemma completeConnection_keeps targetId s :
  let s' := completeConnection targetId s in
  draggingNodeId s' = None
  ∧ tetheredNodeId s' = tetheredNodeId s
  ∧ currentLevel s' = currentLevel s
  ∧ sequenceOrder s' = sequenceOrder s
  ∧ envFeatures s' = envFeatures s
  ∧ node_ids s' = node_ids s
  ∧ map node_position (nodes s') = map node_position (nodes s).
Proof.
  cbv zeta.
  destruct (completeConnection_cases targetId s) as [->|(src & _ & ->)];
    [by repeat split|].
  repeat split; try done.
  - apply acceptConnection_node_ids.
  - unfold acceptConnection. cbn [nodes set_nodes set_connections
      set_draggingNodeId set_narrativeIndex set_isLevelComplete
      set_nextSequenceIndex].
    rewrite map_map. apply map_ext. intros n. by case_match.
Qed.

(** X3: Whatever it decides, [completeConnection] ends the drag; it never
    writes the tether, the level, the sequence order, the environment
    or the ids, the positions and the number of the nodes. *)
Theorem completeConnection_frame targetId s :
  draggingNodeId (completeConnection targetId s) = None
  ∧ tetheredNodeId (completeConnection targetId s) = tetheredNodeId s
  ∧ currentLevel (completeConnection targetId s) = currentLevel s
  ∧ sequenceOrder (completeConnection targetId s) = sequenceOrder s
  ∧ envFeatures (completeConnection targetId s) = envFeatures s
  ∧ node_ids (completeConnection targetId s) = node_ids s
  ∧ map node_position (nodes (completeConnection targetId s))
    = map node_position (nodes s).
Proof. apply completeConnection_keeps. Qed.

Lemma completeConnection_rejects_degenerate targetId sourceId s :
  sourceIdOf s = Some sourceId →
  sourceId = "" ∨ sourceId = targetId →
  completeConnection targetId s = cancelDrag s.
Proof.
  intros Hsrc Hdeg. unfold completeConnection. rewrite Hsrc.
  assert ((String.eqb sourceId "" || String.eqb sourceId targetId) = true) as ->;
    [|done].
  apply orb_true_iff. destruct Hdeg as [->| ->]; [left|right];
    apply String.eqb_refl.
Qed.

(** X4: A source that is the empty string counts as no source, and a node
    is never connected to itself: both calls only end the drag. *)
Theorem completeConnection_degenerate targetId sourceId s :
  sourceIdOf s = Some sourceId →
  sourceId = "" ∨ sourceId = targetId →
  completeConnection targetId s = cancelDrag s.
Proof. apply completeConnection_rejects_degenerate. Qed.

(** A drag from a node onto itself, in the CHAPTER_1 level. *)
Lemma completeConnection_degenerate_witness :
  let s := startDragConnection "n1-0" (startLevel rnd_half CHAPTER_1 initialState) in
  sourceIdOf s = Some "n1-0"
  ∧ completeConnection "n1-0" s = cancelDrag s.
Proof.
  intros s. split; [reflexivity|].
  apply (completeConnection_degenerate "n1-0" "n1-0" s); [reflexivity|by right].
Defined.

(** X5: In a level without nodes an accepted connection never completes the
    level: it sets [isLevelComplete] to false. *)
Theorem completeConnection_no_nodes targetId s :
  nodes s = [] → accepted targetId s →
  isLevelComplete (completeConnection targetId s) = false.
Proof.
  intros Hnodes [sourceId ->]%accepted_accepts.
  rewrite acceptConnection_coverage. unfold coverage.
  rewrite acceptConnection_nodes_length, Hnodes. apply andb_false_r.
Qed.

(** In the CHEWING level, which has no node, a connection between two
    arbitrary ids is accepted, and resets a completed level. *)
Lemma completeConnection_no_nodes_witness :
  let s := store (run [StartLevel rnd_half CHEWING; GrowPlayer 9%float;
                       StartDragConnection "a"] initialWorld) in
  (nodes s = [] ∧ accepted "b" s ∧ isLevelComplete s = true)
  ∧ isLevelComplete (completeConnection "b" s) = false.
Proof.
  intros s.
  assert (nodes s = []) as Hnodes by reflexivity.
  assert (accepted "b" s) as Hacc by (by exists "a").
  split; [by repeat split|].
  exact (completeConnection_no_nodes "b" s Hnodes Hacc).
Defined.

Lemma simple_edges_snoc cs a b :
  simple_edges cs → a ≠ b → a ≠ "" → ¬ edge_present a b cs →
  simple_edges (cs ++ [(a, b)]).
Proof.
  intros [Hloop Hdup] Hab Ha Hnew. split.
  - intros c [Hold|Hc%list_elem_of_singleton]%elem_of_app; [auto|by subst c].
  - intros i j x y Hij Hx Hy Hsame.
    assert (j < length (cs ++ [(a, b)])) as Hj by (by eapply lookup_lt_Some).
    rewrite length_app in Hj. simpl in Hj.
    rewrite lookup_app_l in Hx by lia.
    destruct (decide (j < length cs)) as [Hold|Hlast].
    + rewrite lookup_app_l in Hy by lia. by apply (Hdup i j x y).
    + assert (j = length cs) as -> by lia.
      rewrite list_lookup_middle in Hy by done. injection Hy as <-.
      apply Hnew. apply list_elem_of_lookup_2 in Hx.
      destruct x as [x1 x2]. unfold same_pair in Hsame. simpl in Hsame.
      destruct Hsame as [[-> ->]|[-> ->]]; [by left|by right].
Qed.

(** X6: At every reachable state no connection joins an id to itself or
    starts at the empty id, and no two connections join the same two
    ids, in either direction. *)
Theorem connections_simple w : reachable w → simple_edges (connections (store w)).
Proof.
  assert (simple_edges []) as Hnil.
  { split; [by intros c Hc%elem_of_nil|by intros ? ? ? ? _ Hi]. }
  induction 1 as [|a w Hw IH _]; [exact Hnil|].
  destruct (starts_level a) eqn:Hs.
  { destruct a; try discriminate Hs; exact Hnil. }
  assert ((∀ targetId, a ≠ CompleteConnection targetId) ∨
          ∃ targetId, a = CompleteConnection targetId) as [Hother|[targetId ->]].
  { destruct a; eauto; by left. }
  - by destruct (step_frame a w Hs Hother) as (_ & _ & -> & _).
  - cbn [step on_store store].
    destruct (completeConnection_accepting targetId (store w))
      as [->|(sourceId & Hsrc & Hne & Hnew & _ & Hacc)]; [exact IH|].
    rewrite Hacc.
    destruct (acceptConnection_fields sourceId targetId (store w))
      as (_ & _ & -> & _).
    apply simple_edges_snoc; try done.
    intros ->.
    rewrite (completeConnection_rejects_degenerate targetId "" (store w))
      in Hacc by auto.
    apply (f_equal (fun s => length (connections s))) in Hacc.
    destruct (acceptConnection_fields "" targetId (store w)) as (_ & _ & Hc & _).
    rewrite Hc, length_app in Hacc. cbn [cancelDrag connections set_draggingNodeId] in Hacc.
    simpl in Hacc. lia.
Qed.

(** The same pair offered twice, the second time backwards, is recorded
    once. *)
Lemma connections_simple_witness :
  let w := run [StartLevel rnd_half CONNECTION;
                SetTetheredNode (Some "n2-mid"); CompleteConnection "n2-low-1";
                SetTetheredNode (Some "n2-low-1"); CompleteConnection "n2-mid"]
             initialWorld in
  connections (store w) = [("n2-mid", "n2-low-1")]
  ∧ simple_edges (connections (store w)).
Proof.
  intros w. split; [reflexivity|].
  apply (connections_simple w), reachable_after.
Defined.

Lemma touched_snoc id cs a b :
  touched id (cs ++ [(a, b)]) ↔ touched id cs ∨ id = a ∨ id = b.
Proof.
  unfold touched. split.
  - intros (c & [Hold|Hc%list_elem_of_singleton]%elem_of_app & Hid).
    + left. eauto.
    + subst c. simpl in Hid. right. destruct Hid; auto.
  - intros [(c & Hc & Hid)|Hid].
    + exists c. split; [apply elem_of_app; auto|done].
    + exists (a, b). split; [apply elem_of_app; right; by apply list_elem_of_singleton|].
      simpl. destruct Hid; auto.
Qed.

Lemma generate_unconnected rnd level :
  Forall (fun n => connected n = false) (gen_nodes (generate rnd level)).
Proof. destruct level; repeat constructor. Qed.

Lemma flags_sync_accept sourceId targetId s :
  flags_sync s → flags_sync (acceptConnection sourceId targetId s).
Proof.
  intros Hsync n' Hin.
  destruct (acceptConnection_fields sourceId targetId s) as (_ & _ & -> & _).
  rewrite touched_snoc.
  unfold acceptConnection in Hin.
  cbn [nodes set_nodes set_connections set_draggingNodeId set_narrativeIndex
       set_isLevelComplete set_nextSequenceIndex] in Hin.
  apply list_elem_of_fmap in Hin as (n & -> & Hn).
  specialize (Hsync n Hn).
  destruct (String.eqb (node_id n) sourceId) eqn:Es; simpl.
  { apply String.eqb_eq in Es. split; auto. }
  destruct (String.eqb (node_id n) targetId) eqn:Et; simpl.
  { apply String.eqb_eq in Et. split; auto. }
  apply String.eqb_neq in Es, Et. rewrite Hsync. split; [auto|].
  intros [?|[?|?]]; done.
Qed.

(** X7: At every reachable state the [connected] flag of a node is true
    exactly when the id of the node is an end of a connection. *)
Theorem connected_flags_sync w : reachable w → flags_sync (store w).
Proof.
  induction 1 as [|a w Hw IH _]; [by intros n Hn%elem_of_nil|].
  assert (∀ rnd level, flags_sync (startLevel rnd level (store w))) as Hstart.
  { intros rnd level n Hn.
    change (n ∈ gen_nodes (generate rnd level)) in Hn.
    pose proof (generate_unconnected rnd level) as Hall.
    rewrite Forall_forall in Hall. rewrite (Hall n Hn).
    split; [done|]. by intros (c & Hc%elem_of_nil & _). }
  destruct (starts_level a) eqn:Hs.
  { destruct a; try discriminate Hs; cbn [step on_store store];
      try unfold resetGame; apply Hstart. }
  assert ((∀ targetId, a ≠ CompleteConnection targetId) ∨
          ∃ targetId, a = CompleteConnection targetId) as [Hother|[targetId ->]].
  { destruct a; eauto; by left. }
  - destruct (step_frame a w Hs Hother) as (_ & Hn & Hc & _).
    unfold flags_sync. by rewrite Hn, Hc.
  - cbn [step on_store store].
    destruct (completeConnection_cases targetId (store w))
      as [->|(sourceId & _ & ->)]; [exact IH|by apply flags_sync_accept].
Qed.

(** After one connection in the tether level its two ends are flagged,
    and the other three nodes are not. *)
Lemma connected_flags_sync_witness :
  let w := run [StartLevel rnd_half CONNECTION;
                SetTetheredNode (Some "n2-mid"); CompleteConnection "n2-low-1"]
             initialWorld in
  map connected (nodes (store w)) = [true; false; true; false; false]
  ∧ flags_sync (store w).
Proof.
  intros w. split; [reflexivity|].
  apply (connected_flags_sync w), reachable_after.
Defined.

(** X8: Within a level connections are only ever appended, and the level
    and the ids of its nodes stay: along a run of actions that do not
    start a level, the connection list of the start is a prefix of the
    connection list of the end. *)
Theorem connections_only_grow acts w :
  Forall (fun a => starts_level a = false) acts →
  connections (store w) `prefix_of` connections (store (run acts w))
  ∧ currentLevel (store (run acts w)) = currentLevel (store w)
  ∧ node_ids (store (run acts w)) = node_ids (store w).
Proof.
  intros Hall. revert w. induction Hall as [|a acts Ha _ IH]; intros w; [done|].
  cbn [run foldl]. destruct (IH (step a w)) as (Hp & Hl & Hn).
  fold (run acts (step a w)) in *. rewrite Hl, Hn.
  assert ((∀ targetId, a ≠ CompleteConnection targetId) ∨
          ∃ targetId, a = CompleteConnection targetId) as [Hother|[targetId ->]].
  { destruct a; eauto; by left. }
  - destruct (step_frame a w Ha Hother) as (Hl' & Hn' & Hc' & _).
    unfold node_ids. by rewrite <- Hc', Hl', Hn'.
  - cbn [step on_store store] in *.
    destruct (completeConnection_keeps targetId (store w))
      as (_ & _ & -> & _ & _ & -> & _).
    split; [|done].
    destruct (completeConnection_cases targetId (store w))
      as [Heq|(sourceId & _ & Heq)]; rewrite Heq in Hp; [done|].
    destruct (acceptConnection_fields sourceId targetId (store w))
      as (_ & _ & Hc & _).
    rewrite Hc in Hp. etrans; [|exact Hp]. by apply prefix_app_r.
Qed.

(** A connection survives popping, growing, rain and further drags. *)
Lemma connections_only_grow_witness :
  let w := run [StartLevel rnd_half CONNECTION;
                SetTetheredNode (Some "n2-mid"); CompleteConnection "n2-low-1"]
             initialWorld in
  let acts := [GrowPlayer 3%float; TriggerRain; Tick 0; CancelDrag;
               SetTetheredNode (Some "n2-low-2"); CompleteConnection "n2-high-1"] in
  connections (store w) = [("n2-mid", "n2-low-1")]
  ∧ connections (store w) `prefix_of` connections (store (run acts w)).
Proof.
  intros w acts. split; [reflexivity|].
  apply (connections_only_grow acts w). by repeat constructor.
Defined.

(** ** The end of the sequence puzzle *)

Lemma touched_joins s id :
  (∀ k, k < length (connections s) → joins_consecutive s k) →
  touched id (connections s)
  ↔ ∃ k, k < length (connections s)
      ∧ (sequenceOrder s !! k = Some id ∨ sequenceOrder s !! (k + 1) = Some id).
Proof.
  intros Hj. split.
  - intros (c & Hc & Hid). apply list_elem_of_lookup in Hc as [k Hk].
    assert (k < length (connections s)) as Hlt by (by eapply lookup_lt_Some).
    exists k. split; [done|].
    destruct (Hj k Hlt) as (a & b & Ha & Hb & [Hab|Hab]);
      rewrite Hk in Hab; injection Hab as ->; simpl in Hid;
      rewrite Ha, Hb; destruct Hid as [<-|<-]; auto.
  - intros (k & Hlt & Hid).
    destruct (Hj k Hlt) as (a & b & Ha & Hb & Hab).
    assert (id = a ∨ id = b) as Hid'.
    { rewrite Ha, Hb in Hid. destruct Hid as [[= ->]|[= ->]]; auto. }
    destruct Hab as [Hab|Hab]; apply list_elem_of_lookup_2 in Hab;
      eexists; (split; [exact Hab|]); simpl; destruct Hid'; auto.
Qed.

(** The ids met by the first [n] steps of the sequence, [n >= 1], are
    its first [n + 1] ids. *)
Lemma connectedSet_prefix s :
  (∀ k, k < length (connections s) → joins_consecutive s k) →
  connections s ≠ [] →
  connectedSet (connections s)
  = list_to_set (take (S (length (connections s))) (sequenceOrder s)).
Proof.
  intros Hj Hne. apply set_eq. intros id.
  rewrite elem_of_connectedSet, elem_of_list_to_set, elem_of_take.
  rewrite (touched_joins s id Hj).
  assert (0 < length (connections s)) as Hpos.
  { destruct (connections s); [done|simpl; lia]. }
  split.
  - intros (k & Hlt & [Hid|Hid]); [exists k|exists (k + 1)]; split; (done || lia).
  - intros (i & Hid & Hlt).
    destruct (decide (i < length (connections s))) as [Hold|Hlast].
    + exists i. auto.
    + exists (i - 1). split; [lia|]. right.
      by replace (i - 1 + 1) with i by lia.
Qed.

Lemma level1_ids_NoDup : NoDup level1_ids.
Proof. apply (bool_decide_unpack _). by vm_compute. Qed.

(** X9: In the CHAPTER_1 level an accepted connection completes the level
    exactly when it is the fifth: the flag it writes is true exactly
    when [nextSequenceIndex] has reached 5, the last index of the
    sequence order. *)
Theorem sequence_completes_at_five targetId w :
  reachable w → currentLevel (store w) = CHAPTER_1 →
  accepted targetId (store w) →
  isLevelComplete (completeConnection targetId (store w)) = true
  ↔ nextSequenceIndex (completeConnection targetId (store w)) = 5.
Proof.
  intros Hw Hlvl Hacc.
  pose proof (reachable_step _ (CompleteConnection targetId) w Hw I) as Hw'.
  apply sequence_inv_reachable in Hw'. cbn [step on_store store] in Hw'.
  destruct (accepted_accepts _ _ Hacc) as [sourceId Heq].
  set (s' := completeConnection targetId (store w)) in *.
  assert (currentLevel s' = CHAPTER_1) as Hlvl'.
  { unfold s'. by destruct (completeConnection_keeps targetId (store w))
      as (_ & _ & -> & _). }
  destruct (Hw' Hlvl') as (Hseq & Hids & Hlen & Hlt & Hj).
  assert (connections s' ≠ []) as Hne.
  { destruct Hacc as [src Hc]. fold s' in Hc. rewrite Hc.
    by destruct (connections (store w)). }
  assert (isLevelComplete s' = coverage s') as ->.
  { rewrite Heq. apply acceptConnection_coverage. }
  unfold coverage. rewrite (connectedSet_prefix s' Hj Hne).
  rewrite size_list_to_set
    by (rewrite Hseq; eapply sublist_NoDup;
        [apply level1_ids_NoDup|apply sublist_take]).
  rewrite length_take, Hlen.
  assert (length (nodes s') = 6) as ->.
  { rewrite <- (length_map node_id). fold (node_ids s'). by rewrite Hids. }
  rewrite Hseq in *. change (length level1_ids) with 6 in *.
  rewrite andb_true_iff, Nat.leb_le, Nat.ltb_lt. lia.
Qed.

(** The first connection of the sequence does not complete the level. *)
Lemma sequence_completes_at_five_witness :
  let w := run [StartLevel rnd_half CHAPTER_1; StartDragConnection "n1-0"]
             initialWorld in
  (currentLevel (store w) = CHAPTER_1 ∧ accepted "n1-1" (store w))
  ∧ (isLevelComplete (completeConnection "n1-1" (store w)) = true
     ↔ nextSequenceIndex (completeConnection "n1-1" (store w)) = 5).
Proof.
  intros w.
  assert (currentLevel (store w) = CHAPTER_1) as Hlvl by reflexivity.
  assert (accepted "n1-1" (store w)) as Hacc
    by (exists "n1-0"; vm_compute; reflexivity).
  split; [exact (conj Hlvl Hacc)|].
  exact (sequence_completes_at_five "n1-1" w (reachable_after _) Hlvl Hacc).
Defined.

(** X10: Once the index of the CHAPTER_1 level is 5 the sequence is used up:
    every further [completeConnection] only ends the drag. *)
Theorem sequence_exhausted targetId w :
  reachable w → currentLevel (store w) = CHAPTER_1 →
  nextSequenceIndex (store w) = 5 →
  completeConnection targetId (store w) = cancelDrag (store w).
Proof.
  intros Hw Hlvl Hidx.
  destruct (sequence_inv_reachable w Hw Hlvl) as (Hseq & _).
  destruct (sourceIdOf (store w)) as [sourceId|] eqn:Hsrc;
    [|by apply completeConnection_no_source].
  apply (completeConnection_out_of_order _ sourceId); [done..|].
  unfold expected_pair. rewrite Hseq, Hidx.
  intros [[_ H]|[_ H]]; discriminate H.
Qed.

(** After the five steps of the sequence a sixth drag is refused. *)
Lemma sequence_exhausted_witness :
  let w := run [StartLevel rnd_half CHAPTER_1;
                StartDragConnection "n1-0"; CompleteConnection "n1-1";
                StartDragConnection "n1-1"; CompleteConnection "n1-2";
                StartDragConnection "n1-2"; CompleteConnection "n1-3";
                StartDragConnection "n1-3"; CompleteConnection "n1-4";
                StartDragConnection "n1-4"; CompleteConnection "n1-5";
                StartDragConnection "n1-5"] initialWorld in
  (nextSequenceIndex (store w) = 5 ∧ isLevelComplete (store w) = true)
  ∧ completeConnection "n1-0" (store w) = cancelDrag (store w).
Proof.
  intros w.
  assert (nextSequenceIndex (store w) = 5) as Hidx by reflexivity.
  assert (isLevelComplete (store w) = true) as Hc by reflexivity.
  split; [exact (conj Hidx Hc)|].
  exact (sequence_exhausted "n1-0" w (reachable_after _) eq_refl Hidx).
Defined.

(** ** Generated content *)

(** X11: Whatever the draws, the features a generator returns carry
    pairwise different ids, and so do its nodes; only CHAPTER_1 (six
    nodes) and CONNECTION (five) have nodes, and every node starts
    unconnected. *)
Theorem generated_ids_unique rnd level :
  NoDup (map feat_id (gen_env (generate rnd level)))
  ∧ NoDup (map node_id (gen_nodes (generate rnd level)))
  ∧ length (gen_nodes (generate rnd level))
    = match level with CHAPTER_1 => 6 | CONNECTION => 5 | _ => 0 end
  ∧ Forall (fun n => connected n = false) (gen_nodes (generate rnd level)).
Proof.
  split; [|split; [|split]].
  - destruct level; apply (bool_decide_unpack _); vm_compute; reflexivity.
  - destruct level; apply (bool_decide_unpack _); vm_compute; reflexivity.
  - by destruct level.
  - apply generate_unconnected.
Qed.

(** ** Level transitions and what came before *)

Lemma startLevel_forgets rnd level s1 s2 :
  hoveredNodeId s1 = hoveredNodeId s2 → isMouseDown s1 = isMouseDown s2 →
  startLevel rnd level s1 = startLevel rnd level s2.
Proof.
  intros Hh Hm. unfold startLevel.
  cbv [set_currentLevel set_interactionMode set_nodes set_envFeatures
       set_connections set_playerPos set_cursorWorldPos set_isLevelComplete
       set_narrativeIndex set_draggingNodeId set_sequenceOrder
       set_nextSequenceIndex set_tetheredNodeId set_bubblesPopped
       set_fragmentsCollected set_playerScale set_leafHealth set_rainLevel
       set_isRaining set_isInteractiveHover
       currentLevel interactionMode narrativeIndex nodes connections
       envFeatures playerPos cursorWorldPos isMouseDown hoveredNodeId
       draggingNodeId isInteractiveHover sequenceOrder nextSequenceIndex
       tetheredNodeId bubblesPopped fragmentsCollected playerScale leafHealth
       rainLevel isRaining isLevelComplete].
  fold (hoveredNodeId s1) (hoveredNodeId s2) (isMouseDown s1) (isMouseDown s2).
  by rewrite Hh, Hm.
Qed.

Lemma step_keeps_input a w :
  writes_input a = false →
  hoveredNodeId (store (step a w)) = hoveredNodeId (store w)
  ∧ isMouseDown (store (step a w)) = isMouseDown (store w).
Proof.
  intros Hin. destruct a; try discriminate Hin; cbn [step on_store play store];
    try (by split).
  - by destruct (completeConnection_cases targetId (store w))
      as [->|(src & _ & ->)].
  - unfold popBubble. by case_match.
  - unfold selectVehicle. by case_match.
  - unfold tick. by repeat case_match.
Qed.

(** X12: Starting a level erases what was done before: after any run of
    actions that set neither the hovered node nor the mouse button, the
    state [startLevel] leaves is the one it would have left at once. *)
Theorem startLevel_erases rnd level acts w :
  Forall (fun a => writes_input a = false) acts →
  store (step (StartLevel rnd level) (run acts w))
  = startLevel rnd level (store w).
Proof.
  intros Hall. cbn [step on_store store]. apply startLevel_forgets.
  - revert w. induction Hall as [|a acts Ha _ IH]; intros w; [done|].
    cbn [run foldl]. fold (run acts (step a w)). rewrite IH.
    by destruct (step_keeps_input a w Ha).
  - revert w. induction Hall as [|a acts Ha _ IH]; intros w; [done|].
    cbn [run foldl]. fold (run acts (step a w)). rewrite IH.
    by destruct (step_keeps_input a w Ha).
Qed.

(** A level played, then started over. *)
Lemma startLevel_erases_witness :
  let acts := [StartLevel rnd_half CHAPTER_1; StartDragConnection "n1-0";
               CompleteConnection "n1-1"; GrowPlayer 3%float; TriggerRain;
               Tick 0; AdvanceNarrative] in
  store (step (StartLevel rnd_half CHAPTER_1) (run acts initialWorld))
  = startLevel rnd_half CHAPTER_1 initialState.
Proof.
  intros acts.
  apply (startLevel_erases rnd_half CHAPTER_1 acts initialWorld).
  by repeat constructor.
Defined.

(** ** Intervals that outlive their level *)

Lemma run_snoc acts a w : run (acts ++ [a]) w = step a (run acts w).
Proof. unfold run. by rewrite foldl_snoc. Qed.

Lemma run_repeat_S a n w : run (repeat a (S n)) w = run (repeat a n) (step a w).
Proof. reflexivity. Qed.

(** [n] ticks of a live interval while the rain stays below 20. *)
Lemma ticks_rising handle n m w :
  is_Some (timers w !! handle) → rainLevel (store w) = rainSeq m →
  m + n ≤ 501 →
  let w' := run (repeat (Tick handle) n) w in
  rainLevel (store w') = rainSeq (m + n)
  ∧ is_Some (timers w' !! handle)
  ∧ currentLevel (store w') = currentLevel (store w).
Proof.
  cbv zeta. revert m w. induction n as [|n IH]; intros m w Hlive Hr Hle.
  { rewrite Nat.add_0_r. done. }
  rewrite run_repeat_S. cbn [step]. destruct Hlive as [latch Hlive].
  assert ((20 <=? rainLevel (store w))%float = false) as Hlow.
  { rewrite Hr. destruct (rain_facts m) as (_ & _ & -> & _); [lia|].
    apply Nat.leb_gt. lia. }
  destruct (tick_rising handle latch w Hlive Hlow) as (Hr' & _ & _ & _ & Ht & _).
  destruct (tick_frame handle w) as (Hl & _).
  destruct (IH (S m) (tick handle w)) as (-> & ? & ->); [by rewrite Ht| |lia|].
  - by rewrite Hr', Hr.
  - rewrite Nat.add_succ_r. done.
Qed.

(** X13: [startLevel] does not clear the intervals: a rain interval that is
    live when a level is started goes on ticking in the new level,
    lifts its [rainLevel] from 0, and its 502nd tick declares the new
    level, whichever it is, complete and sets its narrative index to
    1. *)
Theorem interval_outlives_level rnd level handle w :
  is_Some (timers w !! handle) →
  let w0 := step (StartLevel rnd level) w in
  let w' := run (repeat (Tick handle) 502) w0 in
  timers w0 = timers w
  ∧ isLevelComplete (store w0) = false
  ∧ currentLevel (store w') = level
  ∧ rainLevel (store w') = rainSeq 501
  ∧ isLevelComplete (store w') = true
  ∧ narrativeIndex (store w') = 1
  ∧ timers w' !! handle = None.
Proof.
  intros Hlive. cbv zeta.
  set (w0 := step (StartLevel rnd level) w).
  assert (timers w0 = timers w) as Ht0 by reflexivity.
  assert (currentLevel (store w0) = level) as Hl0 by reflexivity.
  destruct (ticks_rising handle 501 0 w0) as (Hr & [latch Ht] & Hl);
    [by rewrite Ht0|reflexivity|lia|].
  change (rainSeq (0 + 501)) with (rainSeq 501) in Hr.
  change (repeat (Tick handle) 502)
    with (Tick handle :: repeat (Tick handle) 501).
  rewrite repeat_cons, run_snoc.
  set (w1 := run (repeat (Tick handle) 501) w0) in *. cbn [step].
  assert ((20 <=? rainLevel (store w1))%float = true) as Hhigh.
  { rewrite Hr. by destruct (rain_facts 501) as (_ & _ & -> & _). }
  destruct (tick_stopping handle latch w1 Ht Hhigh) as (-> & -> & -> & _ & -> & _).
  destruct (tick_frame handle w1) as (-> & _).
  by rewrite Hl, Hl0, Hr.
Qed.

(** A rain started in the SUN level completes the NAME level. *)
Lemma interval_outlives_level_witness :
  let w := rain_run rnd_half initialWorld 10 in
  let w' := run (repeat (Tick 0) 502) (step (StartLevel rnd_half NAME) w) in
  is_Some (timers w !! 0)
  ∧ currentLevel (store w') = NAME
  ∧ isLevelComplete (store w') = true.
Proof.
  intros w w'.
  assert (is_Some (timers w !! 0)) as Hlive by (vm_compute; eauto).
  split; [exact Hlive|].
  destruct (interval_outlives_level rnd_half NAME 0 w Hlive)
    as (_ & _ & Hl & _ & Hc & _).
  exact (conj Hl Hc).
Defined.

(** ** Amounts that are not numbers *)

Lemma float_is_nan_spec x : PrimFloat.is_nan x = true ↔ Prim2SF x = S754_nan.
Proof.
  unfold PrimFloat.is_nan. rewrite FloatAxioms.eqb_spec. unfold SFeqb.
  split.
  - destruct (Prim2SF x) as [[]|[]| |[] m e]; try done; simpl;
      by rewrite ?Z.compare_refl, ?Pos.compare_cont_refl.
  - by intros ->.
Qed.

Lemma float_add_nan x a :
  PrimFloat.is_nan x = true → PrimFloat.is_nan (x + a)%float = true.
Proof.
  rewrite !float_is_nan_spec, FloatAxioms.add_spec. by intros ->.
Qed.

Lemma Math_min_nan x c :
  PrimFloat.is_nan x = true → Math_min x c = PrimFloat.nan.
Proof. intros H. unfold Math_min. by rewrite H. Qed.

(** X14: A scale or a health that is not a number stays so: once
    [playerScale] is NaN, which [growPlayer(NaN)] makes it, every later
    [growPlayer] keeps it NaN and writes a false completion flag, and no
    action that does not start a level repairs it; the same holds of
    [leafHealth] and [healLeaf]. *)
Theorem nan_is_absorbing :
  (∀ s, PrimFloat.is_nan (playerScale (growPlayer PrimFloat.nan s)) = true
        ∧ PrimFloat.is_nan (leafHealth (healLeaf PrimFloat.nan s)) = true)
  ∧ (∀ amount s,
       PrimFloat.is_nan (playerScale s) = true →
       PrimFloat.is_nan (playerScale (growPlayer amount s)) = true
       ∧ isLevelComplete (growPlayer amount s) = false)
  ∧ (∀ amount s,
       PrimFloat.is_nan (leafHealth s) = true →
       PrimFloat.is_nan (leafHealth (healLeaf amount s)) = true
       ∧ isLevelComplete (healLeaf amount s) = false)
  ∧ (∀ a w,
       starts_level a = false →
       (PrimFloat.is_nan (playerScale (store w)) = true →
        PrimFloat.is_nan (playerScale (store (step a w))) = true)
       ∧ (PrimFloat.is_nan (leafHealth (store w)) = true →
          PrimFloat.is_nan (leafHealth (store (step a w))) = true)).
Proof.
  assert (∀ x a c, PrimFloat.is_nan x = true →
            Math_min (x + a) c = PrimFloat.nan) as Hmin.
  { intros x a c Hx. by apply Math_min_nan, float_add_nan. }
  assert (∀ x c, PrimFloat.is_nan (Math_min (PrimFloat.nan + x) c) = true) as Hnan.
  { intros x c. by rewrite Hmin. }
  split; [|split; [|split]].
  - intros s. split.
    + change (PrimFloat.is_nan (Math_min (playerScale s + PrimFloat.nan) 10) = true).
      rewrite Math_min_nan; [done|].
      rewrite float_is_nan_spec, FloatAxioms.add_spec.
      change (Prim2SF PrimFloat.nan) with S754_nan.
      by destruct (Prim2SF (playerScale s)).
    + change (PrimFloat.is_nan (Math_min (leafHealth s + PrimFloat.nan) 100) = true).
      rewrite Math_min_nan; [done|].
      rewrite float_is_nan_spec, FloatAxioms.add_spec.
      change (Prim2SF PrimFloat.nan) with S754_nan.
      by destruct (Prim2SF (leafHealth s)).
  - intros amount s Hx.
    change (PrimFloat.is_nan (Math_min (playerScale s + amount) 10) = true
            ∧ (8 <? Math_min (playerScale s + amount) 10)%float = false).
    by rewrite Hmin.
  - intros amount s Hx.
    change (PrimFloat.is_nan (Math_min (leafHealth s + amount) 100) = true
            ∧ (100 <=? Math_min (leafHealth s + amount) 100)%float = false).
    by rewrite Hmin.
  - intros a w Hs.
    destruct (step_frame_measures a w Hs) as (Hp & Hl & _). split; intros Hx.
    + destruct Hp as [->|[amount ->]]; [done|].
      change (PrimFloat.is_nan
                (Math_min (playerScale (store w) + amount) 10) = true).
      by rewrite Hmin.
    + destruct Hl as [->|[amount ->]]; [done|].
      change (PrimFloat.is_nan
                (Math_min (leafHealth (store w) + amount) 100) = true).
      by rewrite Hmin.
Qed.

(** A NaN amount in the CHEWING level: no growth completes it any more. *)
Lemma nan_is_absorbing_witness :
  let s := growPlayer PrimFloat.nan (startLevel rnd_half CHEWING initialState) in
  PrimFloat.is_nan (playerScale s) = true
  ∧ PrimFloat.is_nan (playerScale (growPlayer 9%float s)) = true
  ∧ isLevelComplete (growPlayer 9%float s) = false.
Proof.
  intros s.
  assert (PrimFloat.is_nan (playerScale s) = true) as Hx by reflexivity.
  split; [exact Hx|].
  exact (proj1 (proj2 nan_is_absorbing) 9%float s Hx).
Defined.

(** ** The store as the components drive it *)

Lemma on_store_same w : on_store (fun _ => store w) w = w.
Proof. by destruct w. Qed.

(** A gesture is a call into the store that names a node of the node
    list, if it names one, or no call at all. *)
Lemma gesture_cases g w :
  match g with
  | OnNode _ data => data ∈ nodes (store w)
  | KeyDown _ _ => True
  | Other a => names_no_node a = true
  end →
  gesture g w = w
  ∨ ∃ a, gesture g w = step a w ∧ addresses_nodes a (store w)
      ∧ (∀ id, a ≠ SetTetheredNode id)
      ∧ (∀ id, a = CompleteConnection id → currentLevel (store w) ≠ CONNECTION)
      ∧ (∀ id, a = StartDragConnection id →
           currentLevel (store w) ≠ CONNECTION
           ∧ (currentLevel (store w) = CHAPTER_1 →
              sequenceOrder (store w) !! nextSequenceIndex (store w) = Some id)).
Proof.
  intros Hg. destruct g as [e data|rnd key|a].
  - assert (node_id data ∈ node_ids (store w)) as Hid.
    { unfold node_ids. apply list_elem_of_fmap. eauto. }
    change (gesture (OnNode e data) w)
      with (on_store (fun _ => (nodeEvent e data (store w)).1) w).
    destruct e; cbn [nodeEvent].
    + right. exists (SetHoveredNode (Some (node_id data))). by repeat split.
    + right. exists (SetHoveredNode None). by repeat split.
    + unfold handleDown.
      destruct (negb _ || _)%bool eqn:Hgate; cbn [fst]; [left; apply on_store_same|].
      right. exists (StartDragConnection (node_id data)).
      apply orb_false_iff in Hgate as [Hint%negb_false_iff Hlvl%bool_decide_eq_false].
      split; [reflexivity|]. split; [exact Hid|].
      split; [by intros ?|]. split; [by intros ?|].
      intros id' [= <-]. split; [done|]. intros Hseq.
      unfold isInteractive in Hint. rewrite decide_True in Hint by done.
      unfold isNextInSequence in Hint.
      apply andb_true_iff in Hint as [_ Hnext%bool_decide_eq_true].
      destruct (list_find _ _) as [[i x]|] eqn:Hfind; [|done].
      injection Hnext as <-. by apply list_find_Some in Hfind as (? & -> & _).
    + unfold handleUp.
      destruct (decide _) as [Hlvl|]; cbn [fst]; [|left; apply on_store_same].
      right. exists (CompleteConnection (node_id data)). by repeat split.
  - cbn [gesture]. destruct (handleKeyDown key) as [level|]; [|by left].
    right. exists (StartLevel rnd level). by repeat split.
  - cbn [gesture]. right. exists a.
    destruct a; try discriminate Hg; by repeat split.
Qed.

Lemma played_reachable w :
  played w → reachable_by addresses_nodes w ∧ reachable w.
Proof.
  induction 1 as [|g w Hw [IH1 IH2] Hg]; [split; constructor|].
  destruct (gesture_cases g w Hg) as [->|(a & -> & Ha & _)]; [done|].
  split; by constructor.
Qed.

Lemma find_node_iff id (ns : list NodeData) :
  is_Some (find (fun n => String.eqb (node_id n) id) ns) ↔ id ∈ map node_id ns.
Proof.
  split.
  - intros [n Hn]. apply find_some in Hn as [Hin%list_elem_of_In Heq%String.eqb_eq].
    apply list_elem_of_fmap. eauto.
  - intros (n & -> & Hin%list_elem_of_In)%list_elem_of_fmap.
    destruct (find _ _) as [m|] eqn:Hfind; [eauto|].
    apply (find_none _ _ Hfind) in Hin. by rewrite String.eqb_refl in Hin.
Qed.

(** X15: PuzzleManager draws the line of a connection exactly when both of
    its ids are ids of nodes; a connection that names an absent node is
    recorded, and counted by the coverage test, but not drawn.  Driven
    by the components, the store has a line for every connection. *)
Theorem lines_drawn :
  (∀ s c, is_Some (connectionLine s c) ↔ c.1 ∈ node_ids s ∧ c.2 ∈ node_ids s)
  ∧ (∀ s, length (connectionLines s) = length (connections s))
  ∧ (∀ w, played w → Forall is_Some (connectionLines (store w))).
Proof.
  assert (∀ s c, is_Some (connectionLine s c)
                 ↔ c.1 ∈ node_ids s ∧ c.2 ∈ node_ids s) as Hline.
  { intros s c. unfold connectionLine, node_ids.
    rewrite <- !find_node_iff.
    destruct (find _ _), (find _ _); split;
      first [by intros [? ?]|by intros [[? ?] [? ?]]|by eauto]. }
  split; [exact Hline|]. split; [intros s; apply length_map|].
  intros w [Hw _]%played_reachable.
  destruct (drag_inv_reachable w Hw) as [Hnames _].
  unfold connectionLines. apply Forall_fmap, Forall_forall.
  intros c Hc. apply Hline. by apply Hnames.
Qed.

(** The CONNECTION level played through the Node component: the tether
    is not set, nothing is connected, and nothing is missing on screen;
    the connection from an id that no node carries has no line. *)
Lemma lines_drawn_witness :
  let w := gesture (OnNode PointerUp
                      {| node_id := "n2-mid";
                         node_position := (0%float, 0.5%float, 0%float);
                         connected := false |})
             (gesture (KeyDown rnd_half "7") initialWorld) in
  let ghost := store (run [StartLevel rnd_half CONNECTION;
                           SetTetheredNode (Some "ghost");
                           CompleteConnection "n2-mid"] initialWorld) in
  played w
  ∧ Forall is_Some (connectionLines (store w))
  ∧ connectionLines ghost = [None].
Proof.
  intros w ghost.
  assert (played w) as Hw.
  { apply played_gesture; [apply (played_gesture (KeyDown _ _)); [constructor|done]|].
    vm_compute. do 2 apply list_elem_of_further. apply list_elem_of_here. }
  split; [exact Hw|]. split; [|reflexivity].
  exact (proj2 (proj2 lines_drawn) w Hw).
Defined.

Lemma step_keeps_drag a w :
  names_no_node a = true →
  tetheredNodeId (store (step a w)) = tetheredNodeId (store w)
  ∧ (draggingNodeId (store (step a w)) = draggingNodeId (store w)
     ∨ draggingNodeId (store (step a w)) = None).
Proof.
  intros Ha. destruct a; try discriminate Ha; cbn [step on_store play store];
    try (by split; [|left]).
  - by split; [|right].
  - unfold popBubble. case_match; by split; [|left].
  - unfold selectVehicle. case_match; by split; [|left].
  - destruct (tick_frame handle w) as (_ & _ & _ & _ & _ & -> & ->).
    by split; [|left].
Qed.

Lemma played_inv_frame s s' :
  tetheredNodeId s' = tetheredNodeId s →
  draggingNodeId s' = draggingNodeId s ∨ draggingNodeId s' = None →
  currentLevel s' = currentLevel s → connections s' = connections s →
  sequenceOrder s' = sequenceOrder s →
  nextSequenceIndex s' = nextSequenceIndex s →
  played_inv s → played_inv s'.
Proof.
  intros Ht Hd Hl Hc Hs Hi (Hteth & Hconn & Hseq).
  unfold played_inv, joins_forward. rewrite Ht, Hl, Hc, Hs, Hi.
  split; [done|]. split; [done|]. intros Hlvl.
  destruct (Hseq Hlvl) as [Hdrag Hfwd]. split; [|done].
  intros d Hd'. apply Hdrag. destruct Hd as [<-|Hd]; [done|congruence].
Qed.

Lemma played_inv_startLevel rnd level s : played_inv (startLevel rnd level s).
Proof.
  split; [done|]. split; [done|]. intros _. split; [done|].
  intros k Hk. change (k < 0) in Hk. lia.
Qed.

Lemma played_inv_accept sourceId targetId s :
  sequence_inv s → played_inv s →
  currentLevel s ≠ CONNECTION → sourceIdOf s = Some sourceId →
  (currentLevel s = CHAPTER_1 → expected_pair s sourceId targetId) →
  played_inv (acceptConnection sourceId targetId s).
Proof.
  intros Hsinv (Hteth & _ & Hseq) Hnc Hsrc Hexp.
  destruct (acceptConnection_fields sourceId targetId s)
    as (Hl & Hs & Hc & Hi & _ & Hd & Ht).
  unfold played_inv. rewrite Ht, Hl, Hd.
  split; [done|]. split; [done|]. intros Hlvl. split; [done|].
  destruct (Hsinv Hlvl) as (Hids & _ & Hlen & Hlt & _).
  destruct (Hseq Hlvl) as [Hdrag Hfwd]. specialize (Hexp Hlvl).
  assert (sequenceOrder s !! nextSequenceIndex s = Some sourceId) as Hhere.
  { apply Hdrag. unfold sourceIdOf in Hsrc. by rewrite decide_False in Hsrc. }
  assert (sequenceOrder s !! (nextSequenceIndex s + 1) = Some targetId) as Hnext.
  { destruct Hexp as [[_ H]|[_ H]]; [done|]. exfalso.
    assert (NoDup (sequenceOrder s)) as Hnd by (rewrite Hids; apply level1_ids_NoDup).
    pose proof (NoDup_lookup _ _ _ _ Hnd Hhere H). lia. }
  intros k Hk. rewrite Hc, length_app in Hk. simpl in Hk.
  unfold joins_forward. rewrite Hs, Hc.
  destruct (decide (k < length (connections s))) as [Hold|Hnew].
  - destruct (Hfwd k Hold) as (a & b & ? & ? & ?). exists a, b.
    by rewrite lookup_app_l.
  - assert (k = length (connections s)) as -> by lia.
    exists sourceId, targetId. rewrite list_lookup_middle by done.
    by rewrite Hlen.
Qed.

Lemma played_inv_played w : played w → played_inv (store w).
Proof.
  induction 1 as [|g w Hw IH Hg].
  { split; [done|]. split; [done|]. intros Hlvl. discriminate Hlvl. }
  destruct (played_reachable w Hw) as [_ Hreach].
  apply sequence_inv_reachable in Hreach.
  destruct (gesture_cases g w Hg) as [->|(a & -> & _ & Hnt & Hcc & Hsd)]; [done|].
  destruct (names_no_node a) eqn:Hn.
  { destruct (step_keeps_drag a w Hn) as [? ?].
    destruct (step_frame a w) as (? & _ & ? & ? & ?);
      [by destruct a|by destruct a|].
    by apply (played_inv_frame (store w)). }
  destruct a; try discriminate Hn; cbn [step on_store store].
  - destruct (Hsd id eq_refl) as [Hnc Hnext].
    destruct IH as (Hteth & Hconn & Hseq).
    split; [done|]. split; [done|]. intros Hlvl. split; [|by apply Hseq].
    intros d [= <-]. by apply Hnext.
  - specialize (Hcc targetId eq_refl).
    destruct (completeConnection_accepting targetId (store w))
      as [->|(sourceId & Hsrc & _ & _ & Hexp & ->)].
    + apply (played_inv_frame (store w)); auto.
    + by apply played_inv_accept.
  - apply played_inv_startLevel.
  - unfold resetGame. apply played_inv_startLevel.
  - by destruct (Hnt id).
Qed.

(** X16: Played through the Node component, the sequence puzzle is drawn
    forwards only: at every state of the CHAPTER_1 level the k-th
    connection goes from [sequenceOrder[k]] to [sequenceOrder[k+1]],
    and a recorded drag starts at [sequenceOrder[nextSequenceIndex]];
    the component never tethers, and in the CONNECTION level, where its
    handlers stand back, it connects nothing. *)
Theorem sequence_drawn_forwards w :
  played w →
  tetheredNodeId (store w) = None
  ∧ (currentLevel (store w) = CONNECTION → connections (store w) = [])
  ∧ (currentLevel (store w) = CHAPTER_1 →
     (∀ d, draggingNodeId (store w) = Some d →
           sequenceOrder (store w) !! nextSequenceIndex (store w) = Some d)
     ∧ ∀ k, k < nextSequenceIndex (store w) → joins_forward (store w) k).
Proof.
  intros Hw. destruct (played_inv_played w Hw) as (Ht & Hc & Hs).
  split; [done|]. split; [done|]. intros Hlvl.
  destruct (Hs Hlvl) as [Hd Hf]. split; [done|].
  destruct (played_reachable w Hw) as [_ Hreach].
  destruct (sequence_inv_reachable w Hreach Hlvl) as (_ & _ & <- & _). done.
Qed.

(** The first step of the sequence, played: pointer down on n1-0,
    pointer up on n1-1; the reverse drag, from n1-1, is not recorded. *)
Lemma sequence_drawn_forwards_witness :
  let n0 := {| node_id := "n1-0";
               node_position := ((-4)%float, 0.5%float, (-4)%float);
               connected := false |} in
  let n1 := {| node_id := "n1-1";
               node_position := (0%float, 0.5%float, (-2)%float);
               connected := false |} in
  let w0 := gesture (KeyDown rnd_half "2") initialWorld in
  let w := gesture (OnNode PointerUp n1) (gesture (OnNode PointerDown n0) w0) in
  played w
  ∧ draggingNodeId (store (gesture (OnNode PointerDown n1) w0)) = None
  ∧ connections (store w) = [("n1-0", "n1-1")]
  ∧ joins_forward (store w) 0.
Proof.
  intros n0 n1 w0 w.
  assert (played w0) as Hw0 by (apply (played_gesture (KeyDown _ _)); [constructor|done]).
  assert (played w) as Hw.
  { apply played_gesture; [apply played_gesture; [exact Hw0|]|].
    - vm_compute. apply list_elem_of_here.
    - vm_compute. apply list_elem_of_further, list_elem_of_here. }
  split; [exact Hw|]. split; [reflexivity|]. split; [reflexivity|].
  destruct (sequence_drawn_forwards w Hw) as (_ & _ & Hseq).
  destruct Hseq as [_ Hf]; [reflexivity|]. apply Hf. vm_compute. lia.
Defined.

(** X17: The nine keys "1" to "9" start the nine levels, one key for each
    level, and no other key starts a level. *)
Theorem handleKeyDown_bijective :
  (∀ level, ∃ key, handleKeyDown key = Some level
                   ∧ ∀ key', handleKeyDown key' = Some level → key' = key)
  ∧ (∀ key, is_Some (handleKeyDown key)
            ↔ key ∈ ["1"; "2"; "3"; "4"; "5"; "6"; "7"; "8"; "9"]).
Proof.
  assert (∀ key level, handleKeyDown key = Some level →
            key = match level with
                  | PROLOGUE => "1" | CHAPTER_1 => "2" | NAME => "3"
                  | CHEWING => "4" | WIND => "5" | TRAVEL => "6"
                  | CONNECTION => "7" | HOME => "8" | SUN => "9"
                  end) as Hinv.
  { intros key level. unfold handleKeyDown.
    repeat (destruct (String.eqb key _) eqn:?E;
      [apply String.eqb_eq in E; by intros [= <-]|clear E]).
    discriminate. }
  split.
  - intros level. eexists. split; [|intros key'; apply Hinv].
    by destruct level.
  - intros key. split.
    + intros [level Hk]. rewrite (Hinv key level Hk).
      destruct level; by repeat constructor.
    + intros Hin.
      repeat (apply elem_of_cons in Hin as [->|Hin]; [by eexists|]).
      by apply elem_of_nil in Hin.
Qed.

(** The key of the SUN level. *)
Lemma handleKeyDown_bijective_witness :
  handleKeyDown "9" = Some SUN
  ∧ ∃ key, handleKeyDown key = Some SUN
           ∧ ∀ key', handleKeyDown key' = Some SUN → key' = key.
Proof. split; [reflexivity|exact (proj1 handleKeyDown_bijective SUN)]. Defined.

(** ** Fragments that are not there *)

Lemma filter_all {A} (P : A → Prop) `{∀ x, Decision (P x)} (l : list A) :
  (∀ x, x ∈ l → P x) → filter P l = l.
Proof.
  induction l as [|x l IH]; intros Hall; [done|].
  rewrite filter_cons_True by (apply Hall; left).
  f_equal. apply IH. intros y Hy. apply Hall. by right.
Qed.

Lemma absorbAll_envFeatures ids s :
  (∀ id, id ∈ ids → feature_absent id s) →
  envFeatures (absorbAll ids s) = envFeatures s.
Proof.
  induction ids as [|id ids IH] using rev_ind; intros Habs; [done|].
  rewrite absorbAll_snoc.
  destruct (absorbFragment_fields id (absorbAll ids s)) as (_ & _ & _ & ->).
  rewrite IH by (intros i Hi; apply Habs, elem_of_app; by left).
  apply filter_all. apply Habs, elem_of_app. right. by apply list_elem_of_singleton.
Qed.

(** X18: [absorbFragment] counts calls, not fragments: with an id that no
    feature carries it removes nothing and still adds 1 to
    [fragmentsCollected]; five such calls, counted from 0, complete the
    level with the environment untouched. *)
Theorem absorbFragment_absent ids s :
  (∀ id, id ∈ ids → feature_absent id s) →
  envFeatures (absorbAll ids s) = envFeatures s
  ∧ fragmentsCollected (absorbAll ids s) = fragmentsCollected s + length ids
  ∧ (fragmentsCollected s = 0 → length ids = 5 →
     isLevelComplete (absorbAll ids s) = true
     ∧ narrativeIndex (absorbAll ids s) = 1).
Proof.
  intros Habs. split; [by apply absorbAll_envFeatures|].
  destruct (absorbAll_spec ids s) as [Hn Hrest]. split; [done|].
  intros H0 H5. destruct Hrest as [-> ->]; [by destruct ids|].
  by rewrite H0, H5.
Qed.

(** Five times the same id, that of no feature, in a fresh NAME level. *)
Lemma absorbFragment_absent_witness :
  let s := startLevel rnd_half NAME initialState in
  let ids := replicate 5 "nothing" in
  (∀ id, id ∈ ids → feature_absent id s)
  ∧ length (envFeatures (absorbAll ids s)) = 15
  ∧ isLevelComplete (absorbAll ids s) = true.
Proof.
  intros s ids.
  assert (∀ id, id ∈ ids → feature_absent id s) as Habs.
  { intros id Hid. apply elem_of_replicate in Hid as [-> _].
    refine (proj1 (find_feature_iff "nothing" (envFeatures s)) _).
    vm_compute. reflexivity. }
  split; [exact Habs|].
  destruct (absorbFragment_absent ids s Habs) as (He & _ & Hc).
  split; [rewrite He; reflexivity|]. apply Hc; reflexivity.
Defined.

(** ** The clamp and the thresholds *)

Lemma SFltb_trans_finite (m1 m2 : positive) (e : Z) x :
  (m1 < m2)%positive →
  SFltb (S754_finite false m2 e) x = true →
  SFltb (S754_finite false m1 e) x = true.
Proof.
  intros Hm. unfold SFltb.
  destruct x as [[]|[]| |[] mx ex]; simpl; try done.
  destruct (e ?= ex)%Z; try done.
  rewrite !Pos.compare_cont_spec. simpl.
  destruct (m2 ?= mx)%positive eqn:E2; try done. intros _.
  change (m2 < mx)%positive in E2.
  assert (m1 < mx)%positive as Hlt by lia.
  unfold Pos.lt in Hlt. by rewrite Hlt.
Qed.

Lemma SFltb_of_equal (m1 m2 : positive) (e : Z) x :
  (m1 < m2)%positive →
  SFleb x (S754_finite false m2 e) = true →
  SFleb (S754_finite false m2 e) x = true →
  SFltb (S754_finite false m1 e) x = true.
Proof.
  intros Hm. unfold SFleb, SFltb.
  destruct x as [[]|[]| |[] mx ex]; simpl; try done.
  rewrite (Z.compare_antisym e ex).
  destruct (e ?= ex)%Z; simpl; try done.
  rewrite !Pos.compare_cont_spec, (Pos.compare_antisym m2 mx). simpl.
  destruct (m2 ?= mx)%positive eqn:E2; simpl; try done; intros _ _.
  apply Pos.compare_eq in E2. subst mx. unfold Pos.lt in Hm. by rewrite Hm.
Qed.

Lemma Prim2SF_10 : Prim2SF 10 = S754_finite false 5629499534213120 (-49).
Proof. reflexivity. Qed.

Lemma Prim2SF_8 : Prim2SF 8 = S754_finite false 4503599627370496 (-49).
Proof. reflexivity. Qed.

Lemma float_gt_10_gt_8 x : (10 <? x)%float = true → (8 <? x)%float = true.
Proof.
  rewrite !FloatAxioms.ltb_spec, Prim2SF_10, Prim2SF_8.
  apply SFltb_trans_finite. lia.
Qed.

Lemma float_eq_10_gt_8 x :
  (x <=? 10)%float = true → (10 <=? x)%float = true → (8 <? x)%float = true.
Proof.
  rewrite !FloatAxioms.leb_spec, FloatAxioms.ltb_spec, Prim2SF_10, Prim2SF_8.
  apply SFltb_of_equal. lia.
Qed.

Lemma growPlayer_completes amount s :
  isLevelComplete (growPlayer amount s)
  = (8 <? playerScale s + amount)%float.
Proof.
  change (isLevelComplete (growPlayer amount s))
    with (8 <? Math_min (playerScale s + amount) 10)%float.
  generalize (playerScale s + amount)%float. intros x. unfold Math_min.
  destruct (PrimFloat.is_nan x) eqn:Hnan; simpl.
  { apply float_is_nan_spec in Hnan.
    rewrite !FloatAxioms.ltb_spec, Hnan. done. }
  destruct (x <? 10)%float eqn:Hlt; [done|].
  destruct (10 <? x)%float eqn:Hgt.
  { rewrite (float_gt_10_gt_8 x Hgt). reflexivity. }
  assert ((x <=? 10)%float = true) as Hle by (by apply float_not_ltb_leb).
  assert ((10 <=? x)%float = true) as Hge by (by apply float_not_ltb_leb).
  pose proof (float_eq_10_gt_8 x Hle Hge) as H8. rewrite H8.
  destruct (PrimFloat.classify x); first [exact H8|reflexivity].
Qed.

Lemma healLeaf_completes amount s :
  isLevelComplete (healLeaf amount s)
  = (100 <=? leafHealth s + amount)%float.
Proof.
  change (isLevelComplete (healLeaf amount s))
    with (100 <=? Math_min (leafHealth s + amount) 100)%float.
  generalize (leafHealth s + amount)%float. intros x. unfold Math_min.
  destruct (PrimFloat.is_nan x) eqn:Hnan; simpl.
  { apply float_is_nan_spec in Hnan.
    rewrite !FloatAxioms.leb_spec, Hnan. done. }
  destruct (x <? 100)%float eqn:Hlt; [done|].
  assert ((100 <=? x)%float = true) as Hge by (by apply float_not_ltb_leb).
  rewrite Hge.
  destruct (100 <? x)%float; [reflexivity|].
  destruct (PrimFloat.classify x); first [exact Hge|reflexivity].
Qed.

(** X19: The clamps hide no completion: [growPlayer] completes the level
    exactly when the sum of the scale and the amount, before it is
    clamped at 10, exceeds 8, and [healLeaf] exactly when the sum of the
    health and the amount, before it is clamped at 100, is at least
    100; a sum that is not a number completes nothing. *)
Theorem thresholds_before_clamp amount s :
  isLevelComplete (growPlayer amount s) = (8 <? playerScale s + amount)%float
  ∧ isLevelComplete (healLeaf amount s) = (100 <=? leafHealth s + amount)%float
  ∧ narrativeIndex (growPlayer amount s)
    = (if (8 <? playerScale s + amount)%float then 1 else narrativeIndex s)
  ∧ narrativeIndex (healLeaf amount s) = narrativeIndex s.
Proof.
  split; [apply growPlayer_completes|]. split; [apply healLeaf_completes|].
  split; [|reflexivity].
  rewrite <- growPlayer_completes. reflexivity.
Qed.
